(** * PyHPFEC: Galois-field tables, the BCH/Golay cyclic coder, the BPSK
      modem and the rate matcher

    A shallow embedding of [pyhpfec/config.py], [pyhpfec/cyclic.py],
    [pyhpfec/llr_utils.py], [pyhpfec/modem.py] and
    [pyhpfec/rate_match.py].  Python integers are [Z]; NumPy arrays of
    integer dtype are [list Z] (the dtype's wrap-around written out where
    the source stores into a [uint8] array); [float64] values are the
    kernel's binary64 floats; a Python exception is the left injection of
    [result].  Function bodies are read with Python's and NumPy's
    semantics (bounds-checked indexing, negative indices counting from
    the end); the [@njit] decorators are taken to leave them unchanged. *)

From Stdlib Require Import ZArith Lia Floats.
From stdpp Require Import base list.

#[local] Set Warnings "-inexact-float".

Local Open Scope Z_scope.

(** ** Exceptions and the error monad *)

Inductive exn : Set :=
  | ValueError
  | NotImplementedError
  | RuntimeError
  | IndexError
  | OverflowError
  | ZeroDivisionError
  | TypeError
  | UncorrectableError. (* a block that cannot be decoded; no function of the
                           source raises it *)

Definition result (A : Type) : Type := (exn + A)%type.

Definition ret {A : Type} (a : A) : result A := inr a.

Definition raise {A : Type} (e : exn) : result A := inl e.

Definition bind {A B : Type} (m : result A) (f : A -> result B) : result B :=
  match m with
  | inl e => inl e
  | inr a => f a
  end.

Notation "'let!' x ':=' m 'in' k" := (bind m (fun x => k))
  (at level 10, x name, m at level 100, k at level 200).

(** [for i in idx: s = body(i, s)], stopping at the first exception. *)
Fixpoint for_each {St : Type} (idx : list Z) (body : Z -> St -> result St)
    (s : St) : result St :=
  match idx with
  | [] => ret s
  | i :: rest => let! s' := body i s in for_each rest body s'
  end.

(** Python's [range(lo, hi)]. *)
Definition range (lo hi : Z) : list Z := seqZ lo (hi - lo).

(** ** NumPy arrays of integers *)

Module Np.

(** How a Python integer outside [0, 256) is stored into a [uint8] array:
    NumPy 1.x wraps it modulo 256, NumPy 2.x raises [OverflowError].
    [setup.py] admits both ([numpy>=1.20.0]). *)
Inductive cast_policy : Set := Wrap | Raise.

Definition len {A : Type} (a : list A) : Z := Z.of_nat (length a).

(** Position of index [i] in an array of length [n]: negative indices
    count from the end, anything else out of range is [IndexError]. *)
Definition position (n i : Z) : result nat :=
  if (0 <=? i) && (i <? n) then ret (Z.to_nat i)
  else if (- n <=? i) && (i <? 0) then ret (Z.to_nat (i + n))
  else raise IndexError.

Definition getitem {A : Type} (a : list A) (i : Z) : result A :=
  let! p := position (len a) i in
  match a !! p with
  | Some v => ret v
  | None => raise IndexError
  end.

Definition setitem {A : Type} (a : list A) (i : Z) (v : A) : result (list A) :=
  let! p := position (len a) i in
  ret (<[p := v]> a).

Definition to_uint8 (pol : cast_policy) (v : Z) : result Z :=
  if (0 <=? v) && (v <? 256) then ret v
  else match pol with
       | Wrap => ret (v mod 256)
       | Raise => raise OverflowError
       end.

(** [a[i] = v] for [a] of dtype [uint8]. *)
Definition setitem_u8 (pol : cast_policy) (a : list Z) (i v : Z)
  : result (list Z) :=
  let! p := position (len a) i in
  let! v8 := to_uint8 pol v in
  ret (<[p := v8]> a).

(** [np.zeros(n)]: a negative dimension is a [ValueError]. *)
Definition zeros (n : Z) : result (list Z) :=
  if n <? 0 then raise ValueError else ret (replicate (Z.to_nat n) 0).

(** Bound of a slice: negative bounds count from the end, then the bound
    is clamped to [0, n]. *)
Definition clamp (n b : Z) : Z :=
  let b' := if b <? 0 then b + n else b in
  Z.max 0 (Z.min n b').

(** [a[lo:hi]]. *)
Definition slice {A : Type} (a : list A) (lo hi : Z) : list A :=
  let n := len a in
  let l := clamp n lo in
  let h := clamp n hi in
  take (Z.to_nat (h - l)) (drop (Z.to_nat l) a).

(** [a[:hi]]. *)
Definition slice_to {A : Type} (a : list A) (hi : Z) : list A :=
  slice a 0 hi.

(** [a[lo:]]. *)
Definition slice_from {A : Type} (a : list A) (lo : Z) : list A :=
  slice a lo (len a).

(** [a[lo:hi] ^= g]: [g] must have the shape of the slice, or hold a single
    value, which is then applied to every position of the slice. *)
Definition ixor_slice (a : list Z) (lo hi : Z) (g : list Z)
  : result (list Z) :=
  let n := len a in
  let l := Z.to_nat (clamp n lo) in
  let m := Z.to_nat (clamp n hi - clamp n lo) in
  let! g' := (if Nat.eqb m (length g) then ret g
              else match g with
                   | [x] => ret (replicate m x)
                   | _ => raise ValueError
                   end) in
  ret (take l a ++ zip_with Z.lxor (take m (drop l a)) g' ++ drop (l + m) a).

End Np.

(** ** config.py *)

(** Python's [x << m]: a negative shift count is a [ValueError]. *)
Definition py_shiftl (x m : Z) : result Z :=
  if m <? 0 then raise ValueError else ret (Z.shiftl x m).

(** Python's [x % m] on integers (the result has the sign of [m]). *)
Definition py_mod (x m : Z) : result Z :=
  if m =? 0 then raise ZeroDivisionError else ret (x mod m).

Definition gf_multiply (a b : Z) (log_table anti_log_table : list Z) (M : Z)
  : result Z :=
  if (a =? 0) || (b =? 0) then ret 0
  else
    let! log_a := Np.getitem log_table a in
    let! log_b := Np.getitem log_table b in
    let! q := py_shiftl 1 M in
    let! result_idx := py_mod (log_a + log_b) (q - 1) in
    Np.getitem anti_log_table result_idx.


(** State of the table generation loop of [GFContext._build_tables]:
    [alpha_i] and the two tables it fills. *)
Record gen_state : Set := mkGen {
  g_alpha : Z;
  g_anti : list Z;
  g_log : list Z
}.

(** [alpha_i <<= 1; if alpha_i & Q: alpha_i ^= P_poly]. *)
Definition next_alpha (Q P_poly alpha_i : Z) : Z :=
  let a := Z.shiftl alpha_i 1 in
  if negb (Z.land a Q =? 0) then Z.lxor a P_poly else a.

(** One iteration of the main loop. *)
Definition gen_body (pol : Np.cast_policy) (Q P_poly : Z) (i : Z) (s : gen_state)
  : result gen_state :=
  if Q <=? g_alpha s then raise RuntimeError
  else
    let! anti := Np.setitem_u8 pol (g_anti s) i (g_alpha s) in
    let! log := Np.setitem_u8 pol (g_log s) (g_alpha s) i in
    ret (mkGen (next_alpha Q P_poly (g_alpha s)) anti log).

(** One iteration of the inverse-table loop. *)
Definition inv_body (pol : Np.cast_policy) (Q_minus_1 : Z) (anti log : list Z)
    (i : Z) (inv : list Z) : result (list Z) :=
  let! l := Np.getitem log i in
  let! inv_power := py_mod (Q_minus_1 - l) Q_minus_1 in
  let! a := Np.getitem anti inv_power in
  Np.setitem_u8 pol inv i a.

Module GFContext.

Record context : Set := mk {
  M : Z;
  Q : Z;
  P_poly : Z;
  anti_log_table : list Z;
  log_table : list Z;
  inv_table : list Z
}.

(** The built-in polynomials of [__init__]. *)
Definition standard_polys (M : Z) : option Z :=
  if M =? 4 then Some 19        (* 0b10011 *)
  else if M =? 6 then Some 67   (* 0b1000011 *)
  else if M =? 8 then Some 285  (* 0b100011101 *)
  else None.

Definition _build_tables (pol : Np.cast_policy) (M Q P_poly : Z)
  : result context :=
  let Q_minus_1 := Q - 1 in
  let! anti_log_table := Np.zeros Q in
  let! log_table := Np.zeros Q in
  let! inv_table := Np.zeros Q in
  let! s := for_each (range 0 Q_minus_1) (gen_body pol Q P_poly)
              (mkGen 1 anti_log_table log_table) in
  let! log_table := Np.setitem_u8 pol (g_log s) 0 Q_minus_1 in
  let! inv_table :=
    for_each (range 1 Q) (inv_body pol Q_minus_1 (g_anti s) log_table)
      inv_table in
  ret (mk M Q P_poly (g_anti s) log_table inv_table).

(** [GFContext(M, P_poly)]; [P_poly = None] asks for the built-in
    polynomial. *)
Definition init (pol : Np.cast_policy) (M : Z) (P_poly : option Z)
  : result context :=
  if negb ((2 <=? M) && (M <=? 16)) then raise ValueError
  else
    let Q := Z.shiftl 1 M in
    let! P := match P_poly with
              | Some p => ret p
              | None => match standard_polys M with
                        | Some p => ret p
                        | None => raise NotImplementedError
                        end
              end in
    _build_tables pol M Q P.

End GFContext.

(** ** llr_utils.py *)

Definition llr_to_hard_bits (llrs : list float) : result (list Z) :=
  (* np.empty_like: every position is overwritten by the loop below *)
  let hard_bits := replicate (length llrs) 0 in
  for_each (range 0 (Np.len llrs))
    (fun i hard_bits =>
       let! x := Np.getitem llrs i in
       if PrimFloat.ltb x 0%float then Np.setitem hard_bits i 1
       else Np.setitem hard_bits i 0)
    hard_bits.

(** [np.sign] on a [float64]: -1, 0 or 1, and NaN for NaN. *)
Definition np_sign (x : float) : float :=
  if PrimFloat.ltb x 0%float then (-1)%float
  else if PrimFloat.ltb 0%float x then 1%float
  else if PrimFloat.eqb x 0%float then 0%float
  else x.

(** [np.min(a, axis)] for a 0-d [float64] [a]: the second positional
    argument of [np.min] is the axis, and an axis must be an integer; a
    [float64] there is a [TypeError] whatever its value.  (The element-wise
    minimum of two values is [np.minimum].) *)
Definition np_min_0d (a axis : float) : result float := raise TypeError.

Definition log_map_approx (L_a L_b : float) : result float :=
  let abs_sum := PrimFloat.abs (L_a + L_b) in
  let abs_diff := PrimFloat.abs (L_a - L_b) in
  let signs := (np_sign L_a * np_sign L_b)%float in
  let! m := np_min_0d (PrimFloat.abs L_a) (PrimFloat.abs L_b) in
  ret (signs * m)%float.

(** The formula the comments of [log_map_approx] announce:
    sign(L_a) * sign(L_b) * min(|L_a|, |L_b|). *)
Definition min_sum (L_a L_b : float) : float :=
  let a := PrimFloat.abs L_a in
  let b := PrimFloat.abs L_b in
  (np_sign L_a * np_sign L_b * (if PrimFloat.ltb b a then b else a))%float.

(** ** cyclic.py *)

(** Body of the division loop: [if working_frame[i] == 1:
    working_frame[i : i + g_len] ^= generator]. *)
Definition division_step (generator : list Z) (i : Z) (working_frame : list Z)
  : result (list Z) :=
  let! b := Np.getitem working_frame i in
  if b =? 1
  then Np.ixor_slice working_frame i (i + Np.len generator) generator
  else ret working_frame.

(** The working frame when the division loop is over. *)
Definition division_frame (data generator : list Z) (k : Z)
  : result (list Z) :=
  let! pad := Np.zeros (Np.len generator - 1) in
  for_each (range 0 k) (division_step generator) (data ++ pad).

Definition _numba_cyclic_division (data generator : list Z) (k : Z)
  : result (list Z) :=
  let g_len := Np.len generator in
  let n := Np.len data in
  let! working_frame := division_frame data generator k in
  ret (Np.slice working_frame (n - g_len + 1) n).

(** Inner loop of the syndrome kernel: state is
    [(syndrome_value, current_power)]. *)
Definition syndrome_step (codeword inv_table : list Z) (M alpha_i : Z)
    (j : Z) (st : Z * Z) : result (Z * Z) :=
  let! c := Np.getitem codeword j in
  let syndrome_value := if c =? 1 then Z.lxor (fst st) (snd st) else fst st in
  let! current_power := gf_multiply (snd st) alpha_i inv_table inv_table M in
  ret (syndrome_value, current_power).

Definition _numba_calculate_syndromes (codeword primitive_element_powers
    inv_table : list Z) (M Q t n : Z) : result (list Z) :=
  let! syndromes := Np.zeros (2 * t + 1) in
  let! syndromes :=
    for_each (range 1 (2 * t + 1))
      (fun i syndromes =>
         let! alpha_i := Np.getitem primitive_element_powers i in
         let! st := for_each (range 0 n)
                      (syndrome_step codeword inv_table M alpha_i) (0, 1) in
         Np.setitem syndromes i (fst st))
      syndromes in
  ret (Np.slice_from syndromes 1).

(** [np.argsort] of a [float64] array, as an insertion sort of the indices
    by key (NaN last).  The order NumPy gives to equal keys is its sort's
    own; here they keep their order of appearance. *)
Definition float_le (x y : float) : bool :=
  if PrimFloat.is_nan y then true
  else if PrimFloat.is_nan x then false
  else PrimFloat.leb x y.

Fixpoint insert_by_key (p : float * Z) (l : list (float * Z))
  : list (float * Z) :=
  match l with
  | [] => [p]
  | q :: rest =>
      if float_le (fst q) (fst p) then q :: insert_by_key p rest
      else p :: q :: rest
  end.

Definition np_argsort (a : list float) : list Z :=
  map snd (foldl (fun acc p => insert_by_key p acc) []
             (zip a (range 0 (Np.len a)))).

(** [input_data.astype(np.uint8)] on an integer array. *)
Definition astype_uint8 (a : list Z) : list Z := map (fun v => v mod 256) a.

(** A [uint8] value read as a [float64]. *)
Definition float_of_uint8 (v : Z) : float :=
  PrimFloat.of_uint63 (Uint63.of_Z v).

Module BCHGolayCoder.

Record coder : Set := mk {
  n : Z;
  k : Z;
  t : Z;
  ctx : GFContext.context;
  generator_poly : list Z;
  r : Z;
  primitive_element_powers : list Z
}.

(** [BCHGolayCoder(n, k, t, gf_context)]. *)
Definition init (n k t : Z) (gf_context : GFContext.context) : coder :=
  let generator_poly := [1; 0; 1; 1; 0; 1; 1; 1] in
  mk n k t gf_context generator_poly (Np.len generator_poly - 1)
     (GFContext.anti_log_table gf_context).

Definition encode (self : coder) (data : list Z) : result (list Z) :=
  if negb (Np.len data =? k self) then raise ValueError
  else
    let! parity := _numba_cyclic_division data (generator_poly self) (k self) in
    let codeword := data ++ parity in
    ret codeword.

Definition _calculate_syndromes (self : coder) (codeword : list Z)
  : result (list Z) :=
  Np.zeros (2 * t self).

Definition _decode_algebraic (self : coder) (hard_codeword : list Z)
  : result (list Z * Z) :=
  let! syndromes := _calculate_syndromes self hard_codeword in
  let corrected_codeword := hard_codeword in
  let errors_corrected := 0 in
  let decoded_data := Np.slice_to corrected_codeword (k self) in
  ret (decoded_data, errors_corrected).

(** [input_data] holds LLRs when [is_llr], hard bits otherwise. *)
Definition input_ty (is_llr : bool) : Type :=
  if is_llr then list float else list Z.

(** The Chase branch of [decode].  The test patterns are not enumerated:
    [least_reliable_indices] and [min_metric] are computed and not used. *)
Definition decode_chase (self : coder) (input_data : list float)
    (num_test_patterns : Z) : result (list Z * Z) :=
  let! hard_codeword := llr_to_hard_bits input_data in
  let reliability := map PrimFloat.abs input_data in
  let num_L := Z.min num_test_patterns (n self) in
  let least_reliable_indices :=
    Np.slice_to (np_argsort reliability) num_L in
  let best_codeword := hard_codeword in
  let min_metric :=
    foldl PrimFloat.add 0%float
      (zip_with
         (fun rel h =>
            let u := float_of_uint8 ((1 - (2 * h) mod 256) mod 256) in
            (rel * u * u)%float)
         reliability hard_codeword) in
  let decoded_data := Np.slice_to best_codeword (k self) in
  ret (decoded_data, 0).

(** [decode], taking as a parameter the method that
    [self._decode_algebraic] resolves to (Python looks it up on [self] at
    each call). *)
Definition decode_with
    (algebraic : coder -> list Z -> result (list Z * Z))
    (self : coder) (is_llr : bool) (input_data : input_ty is_llr)
    (soft_decision : bool) (num_test_patterns : Z)
  : result (list Z * Z) :=
  match is_llr return input_ty is_llr -> result (list Z * Z) with
  | true => fun llrs =>
      if soft_decision then decode_chase self llrs num_test_patterns
      else
        let! hard_codeword := llr_to_hard_bits llrs in
        algebraic self hard_codeword
  | false => fun bits =>
      let hard_codeword := astype_uint8 bits in
      algebraic self hard_codeword
  end input_data.

Definition decode := decode_with _decode_algebraic.

End BCHGolayCoder.

(** ** Notions the statements are written with *)

Definition is_bit (b : Z) : Prop := b = 0 \/ b = 1.

(** The values a [uint8] array can hold. *)
Definition is_u8 (v : Z) : Prop := 0 <= v < 256.

(** The decision rule of the likelihood utilities: 1 below zero, else 0. *)
Definition hard_decision (llr : float) : Z :=
  if PrimFloat.ltb llr 0%float then 1 else 0.

(** [alpha_i] at the start of iteration [i] of the table generation loop. *)
Definition alpha_seq (Q P_poly : Z) (i : nat) : Z :=
  Nat.iter i (next_alpha Q P_poly) 1.

(** What holds of the generation loop's state at the start of iteration
    [i]: the running element, the shape of the tables and the range of
    their entries. *)
Definition gen_inv (Q P_poly : Z) (i : nat) (s : gen_state) : Prop :=
  g_alpha s = alpha_seq Q P_poly i
  /\ Np.len (g_anti s) = Q /\ Np.len (g_log s) = Q
  /\ Forall is_u8 (g_anti s) /\ Forall is_u8 (g_log s).

(** What the first [i] iterations have written: [antilog[j]] is the
    element of iteration [j], and [log] sends it back to [j]. *)
Definition gen_contents (Q P_poly : Z) (i : nat) (s : gen_state) : Prop :=
  forall j, (j < i)%nat ->
    g_anti s !! j = Some (alpha_seq Q P_poly j)
    /\ g_log s !! Z.to_nat (alpha_seq Q P_poly j) = Some (Z.of_nat j).

(** The first [n] elements generated from [a]. *)
Fixpoint alpha_list (Q P_poly a : Z) (n : nat) : list Z :=
  match n with
  | O => []
  | S n' => a :: alpha_list Q P_poly (next_alpha Q P_poly a) n'
  end.

(** A polynomial of degree [M] is primitive when x has multiplicative order
    [2^M - 1] modulo it: x^i differs from 1 for 0 < i < Q - 1, and
    x^(Q-1) = 1.  Multiplication by x modulo the polynomial is
    [next_alpha]. *)
Definition is_primitive (M P_poly : Z) : bool :=
  let Q := Z.shiftl 1 M in
  let powers := alpha_list Q P_poly 1 (Z.to_nat Q) in
  (Q <=? P_poly) && (P_poly <? 2 * Q)
  && forallb (fun a => negb (a =? 1)) (take (Z.to_nat (Q - 2)) (drop 1 powers))
  && match powers !! Z.to_nat (Q - 1) with
     | Some a => a =? 1
     | None => false
     end.

(** The context of the test suites, [GFContext(M=4)], and their coder
    [BCHGolayCoder(n=15, k=7, t=2, gf_context=ctx)]. *)
Definition gf16 : GFContext.context :=
  GFContext.mk 4 16 19
    [1; 2; 4; 8; 3; 6; 12; 11; 5; 10; 7; 14; 15; 13; 9; 0]
    [15; 0; 1; 4; 2; 8; 5; 10; 3; 14; 9; 7; 6; 13; 11; 12]
    [0; 1; 9; 14; 13; 11; 7; 6; 15; 2; 12; 5; 10; 4; 3; 8].

Definition bch_15_7 : BCHGolayCoder.coder := BCHGolayCoder.init 15 7 2 gf16.


(** ** modem.py *)

(** [1.0 - 2.0 * bits] on a [uint8] array. *)
Definition _numba_bpsk_modulate (bits : list Z) : list float :=
  map (fun b => (1.0 - 2.0 * float_of_uint8 b)%float) bits.

Definition _numba_bpsk_demodulate_llr (rx_symbols : list float)
    (noise_variance : float) : list float :=
  if PrimFloat.eqb noise_variance 0%float
  then map (fun y => (1e10 * y)%float) rx_symbols
  else map (fun y => (2.0 / noise_variance * y)%float) rx_symbols.

Module BPSKUnguided.

Definition modulate (bits : list Z) : list float := _numba_bpsk_modulate bits.

(** [noise_variance] is 1.0 when the caller gives none. *)
Definition default_noise_variance : float := 1.0%float.

Definition demodulate (rx_symbols : list float) (noise_variance : float)
  : list float :=
  _numba_bpsk_demodulate_llr rx_symbols noise_variance.

End BPSKUnguided.

(** ** rate_match.py *)

(** [np.empty(n, dtype)]: an array of [n] values the caller is to
    overwrite, here copies of the type's default value. *)
Definition np_empty {A : Type} `{Inhabited A} (n : Z) : result (list A) :=
  if n <? 0 then raise ValueError else ret (replicate (Z.to_nat n) inhabitant).

#[global] Instance float_inhabited : Inhabited float := populate 0%float.

(** [np.full(n, v)]. *)
Definition np_full {A : Type} (n : Z) (v : A) : result (list A) :=
  if n <? 0 then raise ValueError else ret (replicate (Z.to_nat n) v).

(** Body of the puncturing loop; the state is
    [(punctured_codeword, idx)]. *)
Definition puncturing_step {A : Type} (codeword : list A)
    (puncturing_pattern : list Z) (i : Z) (st : list A * Z)
  : result (list A * Z) :=
  let! j := py_mod i (Np.len puncturing_pattern) in
  let! p := Np.getitem puncturing_pattern j in
  if p =? 1 then
    let! c := Np.getitem codeword i in
    let! punctured_codeword := Np.setitem (fst st) (snd st) c in
    ret (punctured_codeword, snd st + 1)
  else ret st.

Definition _numba_puncturing {A : Type} `{Inhabited A} (codeword : list A)
    (puncturing_pattern : list Z) : result (list A) :=
  let codeword_len := Np.len codeword in
  let max_output_len := codeword_len in
  let! punctured_codeword := np_empty max_output_len in
  let! st := for_each (range 0 codeword_len)
               (puncturing_step codeword puncturing_pattern)
               (punctured_codeword, 0) in
  ret (Np.slice_to (fst st) (snd st)).

(** Body of the depuncturing loop; the state is
    [(depunctured_llrs, rx_idx)]. *)
Definition depuncturing_step {A : Type} (received_llrs : list A)
    (puncturing_pattern : list Z) (i : Z) (st : list A * Z)
  : result (list A * Z) :=
  let! j := py_mod i (Np.len puncturing_pattern) in
  let! p := Np.getitem puncturing_pattern j in
  if p =? 1 then
    if snd st <? Np.len received_llrs then
      let! x := Np.getitem received_llrs (snd st) in
      let! depunctured_llrs := Np.setitem (fst st) i x in
      ret (depunctured_llrs, snd st + 1)
    else ret st
  else ret st.

Definition _numba_depuncturing {A : Type} (received_llrs : list A)
    (puncturing_pattern : list Z) (N : Z) (LLR_null : A) : result (list A) :=
  let! depunctured_llrs := np_full N LLR_null in
  let! st := for_each (range 0 N)
               (depuncturing_step received_llrs puncturing_pattern)
               (depunctured_llrs, 0) in
  ret (fst st).

Module RateMatcher.

Record matcher : Set := mk {
  original_N : Z;
  target_N : Z;
  puncturing_pattern : list Z
}.

Definition puncture {A : Type} `{Inhabited A} (self : matcher)
    (codeword : list A) : result (list A) :=
  _numba_puncturing codeword (puncturing_pattern self).

Definition depuncture (self : matcher) (received_llrs : list float)
  : result (list float) :=
  _numba_depuncturing received_llrs (puncturing_pattern self)
    (original_N self) 0%float.

End RateMatcher.

(** ** Notions the further statements are written with *)

(** Whether position [i] is kept by the pattern, repeated cyclically. *)
Definition kept (pattern : list Z) (i : nat) : bool :=
  match pattern !! (i mod length pattern)%nat with
  | Some p => p =? 1
  | None => false
  end.

(** The elements of [l], from position [i] on, that the pattern keeps. *)
Fixpoint select {A : Type} (pattern : list Z) (i : nat) (l : list A)
  : list A :=
  match l with
  | [] => []
  | x :: l' =>
      if kept pattern i then x :: select pattern (S i) l'
      else select pattern (S i) l'
  end.

(** [n] positions from position [i] on: a kept position takes the next
    element of [l] while there is one, every other position is [null]. *)
Fixpoint spread {A : Type} (pattern : list Z) (i : nat) (n : nat)
    (l : list A) (null : A) : list A :=
  match n with
  | O => []
  | S n' =>
      if kept pattern i then
        match l with
        | x :: l' => x :: spread pattern (S i) n' l' null
        | [] => null :: spread pattern (S i) n' [] null
        end
      else null :: spread pattern (S i) n' l null
  end.






(** * Properties *)

(** ** The error monad and array accesses *)

Lemma position_nat (n : Z) (p : nat) :
  Z.of_nat p < n -> Np.position n (Z.of_nat p) = inr p.
Proof.
  intros Hp. unfold Np.position.
  replace (0 <=? Z.of_nat p) with true by (symmetry; apply Z.leb_le; lia).
  replace (Z.of_nat p <? n) with true by (symmetry; apply Z.ltb_lt; lia).
  simpl. unfold ret. by rewrite Nat2Z.id.
Qed.

Lemma getitem_lookup {A : Type} (a : list A) (p : nat) (v : A) :
  a !! p = Some v -> Np.getitem a (Z.of_nat p) = inr v.
Proof.
  intros Hv. unfold Np.getitem.
  rewrite position_nat.
  - simpl. by rewrite Hv.
  - apply lookup_lt_Some in Hv. unfold Np.len. lia.
Qed.

Lemma setitem_nat {A : Type} (a : list A) (p : nat) (v : A) :
  (p < length a)%nat -> Np.setitem a (Z.of_nat p) v = inr (<[p := v]> a).
Proof.
  intros Hp. unfold Np.setitem.
  rewrite position_nat; [reflexivity|unfold Np.len; lia].
Qed.

(** A loop over [range(lo, lo + len)] whose body keeps an invariant indexed
    by the iteration runs to its end. *)
Lemma for_each_invariant {St : Type} (I : Z -> St -> Prop)
    (body : Z -> St -> result St) (len : nat) :
  forall (lo : Z) (s : St),
    I lo s ->
    (forall i s0, lo <= i < lo + Z.of_nat len -> I i s0 ->
                  exists s1, body i s0 = inr s1 /\ I (i + 1) s1) ->
    exists s', for_each (seqZ lo (Z.of_nat len)) body s = inr s'
               /\ I (lo + Z.of_nat len) s'.
Proof.
  induction len as [|len IH]; intros lo s Hs Hbody.
  - exists s. split; [reflexivity|]. by rewrite Z.add_0_r.
  - rewrite seqZ_cons by lia. simpl.
    destruct (Hbody lo s) as (s1 & Hb & Hs1); [lia|done|].
    rewrite Hb. simpl.
    replace (Z.pred (Z.of_nat (S len))) with (Z.of_nat len) by lia.
    destruct (IH (Z.succ lo) s1) as (s' & Hrun & Hs').
    + by replace (Z.succ lo) with (lo + 1) by lia.
    + intros i s0 Hi Hs0. apply Hbody; [lia|done].
    + exists s'. split; [done|].
      by replace (lo + Z.of_nat (S len)) with (Z.succ lo + Z.of_nat len) by lia.
Qed.

Lemma getitem_exn {A : Type} (a : list A) (i : Z) (e : exn) :
  Np.getitem a i = inl e -> e = IndexError.
Proof.
  unfold Np.getitem, Np.position.
  repeat (case_match; simpl); unfold raise, ret; congruence.
Qed.

Lemma for_each_range_invariant {St : Type} (I : Z -> St -> Prop)
    (body : Z -> St -> result St) (lo hi : Z) (s : St) :
  lo <= hi -> I lo s ->
  (forall i s0, lo <= i < hi -> I i s0 ->
                exists s1, body i s0 = inr s1 /\ I (i + 1) s1) ->
  exists s', for_each (range lo hi) body s = inr s' /\ I hi s'.
Proof.
  intros Hle Hs Hbody. unfold range.
  destruct (for_each_invariant I body (Z.to_nat (hi - lo)) lo s Hs)
    as (s' & Hrun & Hs').
  - intros i s0 Hi. apply Hbody. lia.
  - rewrite Z2Nat.id in Hrun, Hs' by lia.
    replace (lo + (hi - lo)) with hi in Hs' by lia.
    by exists s'.
Qed.

Lemma bind_inr {A B : Type} (m : result A) (f : A -> result B) (b : B) :
  bind m f = inr b -> exists a, m = inr a /\ f a = inr b.
Proof. destruct m as [e|a]; simpl; [discriminate|]. intros H. by exists a. Qed.

Lemma for_each_preserves {St : Type} (I : St -> Prop)
    (body : Z -> St -> result St) :
  (forall i s s1, I s -> body i s = inr s1 -> I s1) ->
  forall (idx : list Z) (s s' : St),
    I s -> for_each idx body s = inr s' -> I s'.
Proof.
  intros Hbody. induction idx as [|i idx IH]; intros s s' Hs Hrun.
  - simpl in Hrun. injection Hrun as <-. exact Hs.
  - simpl in Hrun. apply bind_inr in Hrun as (s1 & Hb & Hrun).
    eapply IH; [|exact Hrun]. eapply Hbody; eassumption.
Qed.

(** ** config.py: field multiplication *)

(** C10: field multiplication is commutative.  For every pair of operands
    and any log and anti-log tables (well formed or not) and any [M],
    [gf_multiply(a, b)] and [gf_multiply(b, a)] are the same outcome: the
    same element, or the same exception. *)
Theorem gf_multiply_comm (a b : Z) (log_table anti_log_table : list Z) (M : Z) :
  gf_multiply a b log_table anti_log_table M =
  gf_multiply b a log_table anti_log_table M.
Proof.
  unfold gf_multiply.
  destruct (a =? 0) eqn:Ha, (b =? 0) eqn:Hb; simpl; try reflexivity.
  destruct (Np.getitem log_table a) as [ea|la] eqn:Hla,
           (Np.getitem log_table b) as [eb|lb] eqn:Hlb; simpl;
    try reflexivity.
  - apply getitem_exn in Hla, Hlb. congruence.
  - by rewrite (Z.add_comm la lb).
Qed.

(** ** config.py: table generation *)

Lemma to_uint8_range (pol : Np.cast_policy) (v v' : Z) :
  Np.to_uint8 pol v = inr v' -> is_u8 v'.
Proof.
  unfold Np.to_uint8, is_u8.
  destruct ((0 <=? v) && (v <? 256)) eqn:E.
  - intros [= <-]. apply andb_true_iff in E as [E1 E2].
    apply Z.leb_le in E1. apply Z.ltb_lt in E2. lia.
  - destruct pol; [|discriminate]. intros [= <-].
    apply Z.mod_pos_bound. lia.
Qed.

Lemma to_uint8_ok (pol : Np.cast_policy) (v : Z) :
  pol = Np.Wrap \/ is_u8 v ->
  exists v', Np.to_uint8 pol v = inr v' /\ is_u8 v'.
Proof.
  intros Hok.
  destruct (Np.to_uint8 pol v) as [e|v'] eqn:E.
  - exfalso. unfold Np.to_uint8 in E.
    destruct ((0 <=? v) && (v <? 256)) eqn:E'; [discriminate|].
    destruct Hok as [-> | Hv]; [discriminate|].
    apply andb_false_iff in E' as [E' | E'];
      [apply Z.leb_gt in E' | apply Z.ltb_ge in E']; unfold is_u8 in Hv; lia.
  - exists v'. split; [reflexivity|]. by eapply to_uint8_range.
Qed.

Lemma position_Z (n i : Z) :
  0 <= i < n -> Np.position n i = inr (Z.to_nat i).
Proof.
  intros Hi. rewrite <- (Z2Nat.id i) at 1 by lia. apply position_nat. lia.
Qed.

Lemma setitem_u8_ok (pol : Np.cast_policy) (a : list Z) (i v : Z) :
  0 <= i < Np.len a -> pol = Np.Wrap \/ is_u8 v ->
  exists v', is_u8 v'
             /\ Np.setitem_u8 pol a i v = inr (<[Z.to_nat i := v']> a).
Proof.
  intros Hi Hok. unfold Np.setitem_u8. rewrite position_Z by exact Hi.
  destruct (to_uint8_ok pol v Hok) as (v' & -> & Hv').
  exists v'. by split.
Qed.

Lemma getitem_ok {A : Type} (a : list A) (i : Z) :
  0 <= i < Np.len a ->
  exists v, a !! Z.to_nat i = Some v /\ Np.getitem a i = inr v.
Proof.
  intros Hi. destruct (lookup_lt_is_Some_2 a (Z.to_nat i)) as [v Hv].
  { unfold Np.len in Hi. lia. }
  exists v. split; [exact Hv|].
  rewrite <- (Z2Nat.id i) by lia. by apply getitem_lookup.
Qed.

Lemma len_insert {A : Type} (a : list A) (p : nat) (v : A) :
  Np.len (<[p := v]> a) = Np.len a.
Proof. unfold Np.len. by rewrite length_insert. Qed.

(** Bits of field elements. *)

Lemma bits_bound (x M : Z) :
  0 <= M -> 0 <= x -> (forall n, M <= n -> Z.testbit x n = false) ->
  x < 2 ^ M.
Proof.
  intros HM Hx Hbits.
  assert (Hland : Z.land x (Z.ones M) = x).
  { apply Z.bits_inj'. intros n Hn. rewrite Z.land_spec.
    destruct (Z_lt_le_dec n M) as [Hlt | Hge].
    - rewrite Z.ones_spec_low by lia. apply andb_true_r.
    - rewrite Z.ones_spec_high by lia. rewrite Hbits by lia. reflexivity. }
  rewrite <- Hland, Z.land_ones by lia.
  apply Z.mod_pos_bound. apply Z.pow_pos_nonneg; lia.
Qed.

Lemma bits_above (x M n : Z) :
  0 <= x < 2 ^ M -> M <= n -> Z.testbit x n = false.
Proof.
  intros Hx Hn.
  destruct (Z_lt_le_dec M 0) as [HM | HM].
  { rewrite Z.pow_neg_r in Hx by lia. lia. }
  rewrite <- (Z.mod_small x (2 ^ M)) by lia.
  apply Z.mod_pow2_bits_high. lia.
Qed.

Lemma testbit_top (x M : Z) :
  0 <= M -> 2 ^ M <= x < 2 ^ (M + 1) -> Z.testbit x M = true.
Proof.
  intros HM Hx. rewrite Z.testbit_odd, Z.shiftr_div_pow2 by lia.
  rewrite Z.pow_add_r, Z.pow_1_r in Hx by lia.
  assert (H2 : 0 < 2 ^ M) by (apply Z.pow_pos_nonneg; lia).
  replace (x / 2 ^ M) with 1; [reflexivity|].
  apply Z.div_unique with (r := x - 2 ^ M); lia.
Qed.

Lemma land_pow2_testbit (x M : Z) :
  0 <= M -> Z.testbit x M = false -> Z.land x (2 ^ M) = 0.
Proof.
  intros HM Hbit. apply Z.bits_inj'. intros n Hn.
  rewrite Z.land_spec, Z.bits_0, Z.pow2_bits_eqb by lia.
  destruct (Z.eqb_spec M n) as [<- | _];
    [by rewrite Hbit | apply andb_false_r].
Qed.

(** A polynomial of degree [M] keeps the generated element below [Q]. *)
Lemma next_alpha_lt (M P_poly a : Z) :
  0 <= M -> 2 ^ M <= P_poly < 2 ^ (M + 1) -> 0 <= a < 2 ^ M ->
  0 <= next_alpha (2 ^ M) P_poly a < 2 ^ M.
Proof.
  intros HM HP Ha. unfold next_alpha.
  rewrite Z.shiftl_mul_pow2, Z.pow_1_r by lia.
  assert (Hpow : 2 ^ (M + 1) = 2 * 2 ^ M)
    by (rewrite Z.pow_add_r, Z.pow_1_r by lia; lia).
  destruct (Z.land (a * 2) (2 ^ M) =? 0) eqn:E; cbn [negb].
  - apply Z.eqb_eq in E. split; [lia|].
    apply bits_bound; [lia|lia|]. intros n Hn.
    destruct (Z.eq_dec n M) as [-> | Hne].
    + destruct (Z.testbit (a * 2) M) eqn:Hbit; [|reflexivity].
      exfalso.
      assert (Ht : Z.testbit (Z.land (a * 2) (2 ^ M)) M = true)
        by (rewrite Z.land_spec, Hbit, Z.pow2_bits_true by lia; reflexivity).
      rewrite E, Z.bits_0 in Ht. discriminate.
    + apply bits_above with (M := M + 1); lia.
  - apply Z.eqb_neq in E.
    assert (Htop : Z.testbit (a * 2) M = true).
    { destruct (Z.testbit (a * 2) M) eqn:Hbit; [reflexivity|].
      exfalso. apply E. by apply land_pow2_testbit. }
    split; [apply Z.lxor_nonneg; lia|].
    apply bits_bound; [lia|apply Z.lxor_nonneg; lia|].
    intros n Hn. rewrite Z.lxor_spec.
    destruct (Z.eq_dec n M) as [-> | Hne].
    + rewrite Htop, (testbit_top P_poly M) by lia. reflexivity.
    + rewrite (bits_above (a * 2) (M + 1)), (bits_above P_poly (M + 1))
        by lia.
      reflexivity.
Qed.

Lemma next_alpha_nonneg (Q P_poly a : Z) :
  0 <= P_poly -> 0 <= a -> 0 <= next_alpha Q P_poly a.
Proof.
  intros HP Ha. unfold next_alpha.
  assert (0 <= Z.shiftl a 1) by (apply Z.shiftl_nonneg; lia).
  destruct (negb _); [apply Z.lxor_nonneg|]; lia.
Qed.

Lemma alpha_seq_nonneg (Q P_poly : Z) (i : nat) :
  0 <= P_poly -> 0 <= alpha_seq Q P_poly i.
Proof.
  intros HP. induction i as [|i IH]; [unfold alpha_seq; simpl; lia|].
  by apply next_alpha_nonneg.
Qed.

Lemma alpha_seq_lt (M P_poly : Z) (i : nat) :
  1 <= M -> 2 ^ M <= P_poly < 2 ^ (M + 1) ->
  0 <= alpha_seq (2 ^ M) P_poly i < 2 ^ M.
Proof.
  intros HM HP. induction i as [|i IH].
  - unfold alpha_seq. simpl.
    assert (2 ^ 1 <= 2 ^ M) by (apply Z.pow_le_mono_r; lia). lia.
  - apply next_alpha_lt; [lia|done|done].
Qed.

Lemma to_uint8_id (pol : Np.cast_policy) (v : Z) :
  is_u8 v -> Np.to_uint8 pol v = inr v.
Proof.
  intros Hv. unfold Np.to_uint8, is_u8 in *.
  destruct ((0 <=? v) && (v <? 256)) eqn:E; [reflexivity|].
  apply andb_false_iff in E as [E | E];
    [apply Z.leb_gt in E | apply Z.ltb_ge in E]; lia.
Qed.

(** One iteration of the generation loop on an element below [Q]. *)
Lemma gen_body_step (pol : Np.cast_policy) (Q P_poly i : Z) (s : gen_state) :
  pol = Np.Wrap \/ Q <= 256 ->
  0 <= i < Q - 1 -> 0 <= g_alpha s < Q ->
  Np.len (g_anti s) = Q -> Np.len (g_log s) = Q ->
  exists a8 i8,
    is_u8 a8 /\ is_u8 i8 /\ (Q <= 256 -> a8 = g_alpha s /\ i8 = i)
    /\ gen_body pol Q P_poly i s
       = inr (mkGen (next_alpha Q P_poly (g_alpha s))
                (<[Z.to_nat i := a8]> (g_anti s))
                (<[Z.to_nat (g_alpha s) := i8]> (g_log s))).
Proof.
  intros Hpol Hi Ha Hanti Hlog. unfold gen_body, Np.setitem_u8.
  destruct (Q <=? g_alpha s) eqn:E; [apply Z.leb_le in E; lia|].
  rewrite Hanti, Hlog, !position_Z by lia. cbn [bind].
  destruct (to_uint8_ok pol (g_alpha s)) as (a8 & Ea & Ha8);
    [unfold is_u8; destruct Hpol; [by left | right; lia]|].
  destruct (to_uint8_ok pol i) as (i8 & Ei & Hi8);
    [unfold is_u8; destruct Hpol; [by left | right; lia]|].
  rewrite Ea, Ei. cbn [bind].
  exists a8, i8.
  split; [exact Ha8|]. split; [exact Hi8|]. split; [|reflexivity].
  intros HQ.
  rewrite to_uint8_id in Ea, Ei by (unfold is_u8; lia).
  injection Ea as <-. injection Ei as <-. by split.
Qed.

(** The generation loop either meets an element out of range, and raises
    [RuntimeError] there, or runs to its end over elements below [Q]. *)
Lemma gen_loop (pol : Np.cast_policy) (Q P_poly : Z) :
  pol = Np.Wrap \/ Q <= 256 -> 0 <= P_poly ->
  forall (len lo : nat) (s : gen_state),
    Z.of_nat (lo + len) <= Q - 1 -> gen_inv Q P_poly lo s ->
    (for_each (seqZ (Z.of_nat lo) (Z.of_nat len)) (gen_body pol Q P_poly) s
     = inl RuntimeError
     /\ exists i, (lo <= i < lo + len)%nat /\ Q <= alpha_seq Q P_poly i)
    \/ (exists s',
          for_each (seqZ (Z.of_nat lo) (Z.of_nat len)) (gen_body pol Q P_poly) s
          = inr s'
          /\ gen_inv Q P_poly (lo + len) s'
          /\ forall i, (lo <= i < lo + len)%nat -> alpha_seq Q P_poly i < Q).
Proof.
  intros Hpol HP. induction len as [|len IH]; intros lo s Hlen Hinv.
  - right. exists s. split; [reflexivity|].
    split; [by rewrite Nat.add_0_r|]. intros i Hi. lia.
  - rewrite seqZ_cons by lia.
    replace (Z.pred (Z.of_nat (Datatypes.S len))) with (Z.of_nat len) by lia.
    replace (Z.succ (Z.of_nat lo)) with (Z.of_nat (Datatypes.S lo)) by lia.
    cbn [for_each].
    destruct Hinv as (Halpha & Hanti & Hlog & Hau & Hlu).
    destruct (Z_lt_le_dec (g_alpha s) Q) as [Hlt | Hge].
    + destruct (gen_body_step pol Q P_poly (Z.of_nat lo) s)
        as (a8 & i8 & Ha8 & Hi8 & _ & ->); try assumption; try lia.
      { rewrite Halpha. split; [by apply alpha_seq_nonneg|by rewrite <- Halpha]. }
      cbn [bind].
      destruct (IH (Datatypes.S lo)
                  (mkGen (next_alpha Q P_poly (g_alpha s))
                     (<[Z.to_nat (Z.of_nat lo) := a8]> (g_anti s))
                     (<[Z.to_nat (g_alpha s) := i8]> (g_log s))))
        as [(Hrun & i & Hi & Hbig) | (s' & Hrun & Hinv' & Hsmall)].
      * lia.
      * unfold gen_inv. cbn [g_alpha g_anti g_log].
        rewrite !len_insert, Halpha.
        repeat split; try assumption; by apply Forall_insert.
      * left. split; [exact Hrun|]. exists i. split; [lia|exact Hbig].
      * right. exists s'. split; [exact Hrun|].
        split; [by replace (lo + Datatypes.S len)%nat
                      with (Datatypes.S lo + len)%nat by lia|].
        intros i Hi. destruct (Nat.eq_dec i lo) as [-> | Hne].
        -- by rewrite <- Halpha.
        -- apply Hsmall. lia.
    + left. split.
      * unfold gen_body.
        destruct (Q <=? g_alpha s) eqn:E; [reflexivity|apply Z.leb_gt in E; lia].
      * exists lo. split; [lia|by rewrite <- Halpha].
Qed.

(** The inverse-table loop runs to its end on tables of [uint8] entries. *)
Lemma inv_loop_ok (pol : Np.cast_policy) (Q : Z) (anti log : list Z) :
  2 <= Q -> Np.len anti = Q -> Np.len log = Q -> Forall is_u8 anti ->
  exists inv,
    for_each (range 1 Q) (inv_body pol (Q - 1) anti log)
      (replicate (Z.to_nat Q) 0)
    = inr inv
    /\ Np.len inv = Q.
Proof.
  intros HQ Hanti Hlog Hau.
  apply (for_each_range_invariant (fun _ inv => Np.len inv = Q)); [lia| |].
  - unfold Np.len. rewrite length_replicate. lia.
  - intros i inv Hi Hlen. unfold inv_body.
    destruct (getitem_ok log i) as (l & _ & ->); [lia|]. cbn [bind].
    unfold py_mod.
    destruct (Q - 1 =? 0) eqn:E; [apply Z.eqb_eq in E; lia|]. cbn [bind ret].
    assert (Hmod : 0 <= (Q - 1 - l) mod (Q - 1) < Q - 1)
      by (apply Z.mod_pos_bound; lia).
    destruct (getitem_ok anti ((Q - 1 - l) mod (Q - 1))) as (a & Ha & ->);
      [lia|].
    cbn [bind].
    destruct (setitem_u8_ok pol inv i a) as (a' & _ & ->); [lia| |].
    + right. eapply Forall_lookup_1; eassumption.
    + eexists. split; [reflexivity|]. by rewrite len_insert.
Qed.

(** [GFContext._build_tables] has two outcomes: the [RuntimeError] of the range
    check, when some iteration starts on an element out of range, and a
    context otherwise. *)
Lemma build_tables_cases (pol : Np.cast_policy) (M Q P_poly : Z) :
  pol = Np.Wrap \/ Q <= 256 -> 0 <= P_poly -> 2 <= Q ->
  (GFContext._build_tables pol M Q P_poly = inl RuntimeError
   /\ exists i, (i < Z.to_nat (Q - 1))%nat /\ Q <= alpha_seq Q P_poly i)
  \/ ((exists c, GFContext._build_tables pol M Q P_poly = inr c)
      /\ forall i, (i < Z.to_nat (Q - 1))%nat -> alpha_seq Q P_poly i < Q).
Proof.
  intros Hpol HP HQ. unfold GFContext._build_tables, Np.zeros.
  destruct (Q <? 0) eqn:E; [apply Z.ltb_lt in E; lia|]. cbn [bind ret].
  assert (Hrange : seqZ (Z.of_nat 0) (Z.of_nat (Z.to_nat (Q - 1)))
                   = range 0 (Q - 1)).
  { unfold range. rewrite Z2Nat.id by lia. f_equal. lia. }
  destruct (gen_loop pol Q P_poly Hpol HP (Z.to_nat (Q - 1)) 0
              (mkGen 1 (replicate (Z.to_nat Q) 0) (replicate (Z.to_nat Q) 0)))
    as [(Hrun & i & Hi & Hbig) | (s' & Hrun & Hinv & Hsmall)].
  - lia.
  - unfold gen_inv, Np.len. cbn [g_alpha g_anti g_log].
    rewrite length_replicate.
    repeat split; try lia; apply Forall_replicate; unfold is_u8; lia.
  - left. rewrite Hrange in Hrun. rewrite Hrun.
    split; [reflexivity|]. exists i. split; [lia|exact Hbig].
  - right. rewrite Hrange in Hrun. rewrite Hrun. cbn [bind].
    destruct Hinv as (_ & Hanti & Hlog & Hau & Hlu).
    split; [|intros i Hi; apply Hsmall; lia].
    destruct (setitem_u8_ok pol (g_log s') 0 (Q - 1)) as (q8 & Hq8 & ->);
      [lia|unfold is_u8; destruct Hpol; [by left|right; lia]|].
    cbn [bind].
    destruct (inv_loop_ok pol Q (g_anti s') (<[Z.to_nat 0 := q8]> (g_log s')))
      as (inv & -> & _); try assumption.
    { by rewrite len_insert. }
    cbn [bind]. eexists. reflexivity.
Qed.




(** ** config.py: the tables of a context *)

Lemma setitem_u8_Forall (pol : Np.cast_policy) (a a' : list Z) (i v : Z) :
  Forall is_u8 a -> Np.setitem_u8 pol a i v = inr a' -> Forall is_u8 a'.
Proof.
  intros Ha Hset. unfold Np.setitem_u8 in Hset.
  apply bind_inr in Hset as (p & _ & Hset).
  apply bind_inr in Hset as (v8 & Hv8 & Hset).
  injection Hset as <-. apply Forall_insert; [exact Ha|].
  by eapply to_uint8_range.
Qed.

(** Every entry of the log table of a context is a [uint8] value. *)
Lemma log_table_u8 (pol : Np.cast_policy) (M : Z) (P_poly : option Z)
    (c : GFContext.context) :
  GFContext.init pol M P_poly = inr c -> Forall is_u8 (GFContext.log_table c).
Proof.
  unfold GFContext.init. destruct (negb _); [discriminate|].
  intros H. apply bind_inr in H as (P & _ & H).
  unfold GFContext._build_tables in H.
  apply bind_inr in H as (anti0 & Hanti0 & H).
  apply bind_inr in H as (log0 & Hlog0 & H).
  apply bind_inr in H as (inv0 & _ & H).
  apply bind_inr in H as (s & Hs & H).
  apply bind_inr in H as (log & Hlog & H).
  apply bind_inr in H as (inv & _ & H).
  injection H as <-. cbn [GFContext.log_table].
  eapply setitem_u8_Forall; [|exact Hlog].
  eapply (for_each_preserves (fun s => Forall is_u8 (g_log s)));
    [| |exact Hs].
  - intros i s0 s1 Hs0 Hbody. unfold gen_body in Hbody.
    destruct (_ <=? _); [discriminate|].
    apply bind_inr in Hbody as (anti & _ & Hbody).
    apply bind_inr in Hbody as (log' & Hlog' & Hbody).
    injection Hbody as <-. cbn [g_log].
    by eapply setitem_u8_Forall.
  - cbn [g_log]. unfold Np.zeros in Hlog0.
    destruct (_ <? 0); [discriminate|]. injection Hlog0 as <-.
    apply Forall_replicate. unfold is_u8. lia.
Qed.

Lemma getitem_elem {A : Type} (a : list A) (i : Z) (v : A) :
  Np.getitem a i = inr v -> v ∈ a.
Proof.
  unfold Np.getitem. intros H. apply bind_inr in H as (p & _ & H).
  destruct (a !! p) as [w|] eqn:E; [|discriminate].
  injection H as <-. by eapply list_elem_of_lookup_2.
Qed.

(** *** Primitive polynomials of degree at most 8 *)

Lemma alpha_list_lookup (Q P_poly : Z) :
  forall (n : nat) (a : Z) (i : nat),
    (i < n)%nat ->
    alpha_list Q P_poly a n !! i = Some (Nat.iter i (next_alpha Q P_poly) a).
Proof.
  induction n as [|n IH]; intros a [|i] Hi; try lia; [reflexivity|].
  cbn [alpha_list]. change ((?x :: ?l) !! Datatypes.S i) with (l !! i).
  rewrite IH by lia. f_equal. apply Nat.iter_swap.
Qed.

Lemma alpha_seq_shift (Q P_poly : Z) (i j d : nat) :
  alpha_seq Q P_poly i = alpha_seq Q P_poly j ->
  alpha_seq Q P_poly (d + i) = alpha_seq Q P_poly (d + j).
Proof. unfold alpha_seq. rewrite !Nat.iter_add. congruence. Qed.

Lemma alpha_seq_zero (Q P_poly : Z) (i d : nat) :
  alpha_seq Q P_poly i = 0 -> alpha_seq Q P_poly (d + i) = 0.
Proof.
  intros H0. induction d as [|d IH]; [exact H0|].
  change (alpha_seq Q P_poly (Datatypes.S d + i))
    with (next_alpha Q P_poly (alpha_seq Q P_poly (d + i))).
  rewrite IH. reflexivity.
Qed.

(** What [is_primitive] computes: the degree is [M] and x has order
    [2^M - 1]. *)
Lemma is_primitive_order (M P_poly : Z) :
  2 <= M -> is_primitive M P_poly = true ->
  2 ^ M <= P_poly < 2 ^ (M + 1)
  /\ (forall i, (0 < i < Z.to_nat (2 ^ M - 1))%nat ->
                alpha_seq (2 ^ M) P_poly i <> 1)
  /\ alpha_seq (2 ^ M) P_poly (Z.to_nat (2 ^ M - 1)) = 1.
Proof.
  intros HM. unfold is_primitive. rewrite Z.shiftl_1_l.
  assert (HQ : 2 ^ 2 <= 2 ^ M) by (apply Z.pow_le_mono_r; lia).
  rewrite !andb_true_iff. intros [[[Hlo Hhi] Hall] Hlast].
  apply Z.leb_le in Hlo. apply Z.ltb_lt in Hhi.
  split; [rewrite Z.pow_add_r, Z.pow_1_r by lia; lia|]. split.
  - intros i Hi Hone.
    apply Is_true_true, forallb_True in Hall.
    assert (Hlook : take (Z.to_nat (2 ^ M - 2))
                      (drop 1 (alpha_list (2 ^ M) P_poly 1 (Z.to_nat (2 ^ M))))
                    !! (i - 1)%nat
                    = Some (alpha_seq (2 ^ M) P_poly i)).
    { rewrite lookup_take_lt, lookup_drop by lia.
      replace (1 + (i - 1))%nat with i by lia.
      apply alpha_list_lookup. lia. }
    pose proof (Forall_lookup_1 _ _ _ _ Hall Hlook) as Hne.
    rewrite Hone in Hne. exact Hne.
  - rewrite alpha_list_lookup in Hlast by lia.
    by apply Z.eqb_eq in Hlast.
Qed.

Lemma order_distinct (Q P_poly : Z) (n : nat) :
  (forall i, (0 < i < n)%nat -> alpha_seq Q P_poly i <> 1) ->
  alpha_seq Q P_poly n = 1 ->
  forall i j, (i < j < n)%nat -> alpha_seq Q P_poly i <> alpha_seq Q P_poly j.
Proof.
  intros Hord Hone i j Hij Heq.
  apply (alpha_seq_shift _ _ _ _ (n - j)) in Heq.
  replace (n - j + j)%nat with n in Heq by lia.
  rewrite Hone in Heq. apply (Hord (n - j + i)%nat); [lia|exact Heq].
Qed.

Lemma order_nonzero (Q P_poly : Z) (n : nat) :
  alpha_seq Q P_poly n = 1 ->
  forall i, (i <= n)%nat -> alpha_seq Q P_poly i <> 0.
Proof.
  intros Hone i Hi H0.
  apply (alpha_seq_zero _ _ _ (n - i)) in H0.
  replace (n - i + i)%nat with n in H0 by lia. lia.
Qed.

Lemma for_each_seqZ_preserves {St : Type} (I : nat -> St -> Prop)
    (body : Z -> St -> result St) :
  forall (len lo : nat) (s s' : St),
    (forall i s0 s1, (lo <= i < lo + len)%nat -> I i s0 ->
                     body (Z.of_nat i) s0 = inr s1 -> I (Datatypes.S i) s1) ->
    I lo s ->
    for_each (seqZ (Z.of_nat lo) (Z.of_nat len)) body s = inr s' ->
    I (lo + len)%nat s'.
Proof.
  induction len as [|len IH]; intros lo s s' Hbody Hs Hrun.
  - simpl in Hrun. injection Hrun as <-. by rewrite Nat.add_0_r.
  - rewrite seqZ_cons in Hrun by lia. cbn [for_each] in Hrun.
    apply bind_inr in Hrun as (s1 & Hb & Hrun).
    replace (Z.pred (Z.of_nat (Datatypes.S len))) with (Z.of_nat len)
      in Hrun by lia.
    replace (Z.succ (Z.of_nat lo)) with (Z.of_nat (Datatypes.S lo))
      in Hrun by lia.
    replace (lo + Datatypes.S len)%nat with (Datatypes.S lo + len)%nat by lia.
    apply (IH (Datatypes.S lo) s1 s'); [|by eapply (Hbody lo); [lia|..]|done].
    intros i s0 s2 Hi. apply Hbody. lia.
Qed.

(** With elements below [Q <= 256], pairwise distinct, the generation loop
    stores each element and its exponent exactly. *)
Lemma gen_loop_contents (pol : Np.cast_policy) (Q P_poly : Z) (n : nat)
    (s s' : gen_state) :
  Q <= 256 -> Z.of_nat n <= Q - 1 ->
  (forall i, (i < n)%nat -> 0 <= alpha_seq Q P_poly i < Q) ->
  (forall i j, (i < j < n)%nat ->
               alpha_seq Q P_poly i <> alpha_seq Q P_poly j) ->
  gen_inv Q P_poly 0 s ->
  for_each (seqZ (Z.of_nat 0) (Z.of_nat n)) (gen_body pol Q P_poly) s = inr s' ->
  gen_inv Q P_poly n s' /\ gen_contents Q P_poly n s'.
Proof.
  intros HQ Hn Hrange Hdist Hinv Hrun.
  apply (for_each_seqZ_preserves
           (fun i s => gen_inv Q P_poly i s /\ gen_contents Q P_poly i s)
           (gen_body pol Q P_poly) n 0 s s'); [| |exact Hrun].
  - intros i s0 s1 Hi [(Halpha & Hanti & Hlog & Hau & Hlu) Hcont] Hbody.
    pose proof (Hrange i ltac:(lia)) as Hai.
    assert (Ha0 : 0 <= g_alpha s0 < Q) by (by rewrite Halpha).
    destruct (gen_body_step pol Q P_poly (Z.of_nat i) s0
                (or_intror HQ) ltac:(lia) Ha0 Hanti Hlog)
      as (a8 & i8 & Ha8 & Hi8 & Hexact & Hstep).
    destruct (Hexact HQ) as [-> ->].
    rewrite Hstep in Hbody. injection Hbody as <-.
    rewrite Nat2Z.id. split.
    + unfold gen_inv. cbn [g_alpha g_anti g_log].
      rewrite !len_insert. split; [by rewrite Halpha|].
      repeat split; try assumption; by apply Forall_insert.
    + intros j Hj. cbn [g_anti g_log]. rewrite Halpha.
      unfold Np.len in Hanti, Hlog.
      destruct (Nat.eq_dec j i) as [-> | Hne].
      * split; apply list_lookup_insert_eq; lia.
      * destruct (Hcont j ltac:(lia)) as [Hja Hjl].
        split; rewrite list_lookup_insert_ne; try assumption; [lia|].
        pose proof (Hrange j ltac:(lia)).
        pose proof (Hdist j i ltac:(lia)). lia.
  - split; [exact Hinv|]. intros j Hj. lia.
Qed.

(** For [M] in [2, 8] and a primitive polynomial the construction returns a
    context whose tables are mutual inverses, [log[antilog[i]] == i] for
    every [i] in [0, Q - 1), and whose first [Q - 1] anti-log entries are
    the nonzero field elements, each once. *)
Lemma tables_inverse_up_to_8 (pol : Np.cast_policy) (M P_poly : Z) :
  2 <= M <= 8 -> is_primitive M P_poly = true ->
  exists c,
    GFContext.init pol M (Some P_poly) = inr c
    /\ (forall i, 0 <= i < 2 ^ M - 1 ->
          exists e, Np.getitem (GFContext.anti_log_table c) i = inr e
                    /\ Np.getitem (GFContext.log_table c) e = inr i)
    /\ take (Z.to_nat (2 ^ M - 1)) (GFContext.anti_log_table c) ≡ₚ seqZ 1 (2 ^ M - 1).
Proof.
  intros HM Hprim.
  destruct (is_primitive_order M P_poly ltac:(lia) Hprim)
    as (Hdeg & Hord & Hone).
  set (Q := 2 ^ M) in *. set (n := Z.to_nat (Q - 1)) in *.
  assert (HQ4 : 2 ^ 2 <= Q) by (apply Z.pow_le_mono_r; lia).
  assert (HQ8 : Q <= 2 ^ 8) by (apply Z.pow_le_mono_r; lia).
  assert (Hrange : forall i, 0 <= alpha_seq Q P_poly i < Q)
    by (intros i; apply alpha_seq_lt; [lia|exact Hdeg]).
  assert (Hdist : forall i j, (i < n)%nat -> (j < n)%nat ->
            alpha_seq Q P_poly i = alpha_seq Q P_poly j -> i = j).
  { intros i j Hi Hj Heq.
    destruct (Nat.lt_trichotomy i j) as [Hlt | [-> | Hlt]]; [|reflexivity|].
    - by destruct (order_distinct Q P_poly n Hord Hone i j ltac:(lia)).
    - by destruct (order_distinct Q P_poly n Hord Hone j i ltac:(lia)). }
  assert (Hinit : GFContext.init pol M (Some P_poly)
                  = GFContext._build_tables pol M Q P_poly).
  { unfold GFContext.init.
    destruct ((2 <=? M) && (M <=? 16)) eqn:E.
    - cbn [negb bind ret]. by rewrite Z.shiftl_1_l.
    - apply andb_false_iff in E as [E | E];
        [apply Z.leb_gt in E | apply Z.leb_gt in E]; lia. }
  rewrite Hinit.
  destruct (build_tables_cases pol M Q P_poly) as
    [(_ & i & _ & Hbig) | ((c & Hc) & _)];
    [right; lia | lia | lia | specialize (Hrange i); lia |].
  exists c. split; [exact Hc|].
  (* the state the generation loop ends in *)
  unfold GFContext._build_tables in Hc.
  apply bind_inr in Hc as (anti0 & Hanti0 & Hc).
  apply bind_inr in Hc as (log0 & Hlog0 & Hc).
  apply bind_inr in Hc as (inv0 & _ & Hc).
  apply bind_inr in Hc as (s & Hs & Hc).
  apply bind_inr in Hc as (log & Hlog & Hc).
  apply bind_inr in Hc as (inv & _ & Hc).
  injection Hc as <-. cbn [GFContext.anti_log_table GFContext.log_table].
  unfold Np.zeros in Hanti0, Hlog0.
  destruct (Q <? 0) eqn:E; [discriminate|].
  injection Hanti0 as <-. injection Hlog0 as <-.
  assert (Hseq : range 0 (Q - 1) = seqZ (Z.of_nat 0) (Z.of_nat n)).
  { unfold range, n. rewrite Z2Nat.id by lia. f_equal. lia. }
  rewrite Hseq in Hs.
  apply gen_loop_contents in Hs
    as [(_ & Hanti & Hlen & _ & _) Hcont]; [|lia|lia|by intros| |].
  2:{ intros i j Hij Heq. apply Hdist in Heq; lia. }
  2:{ unfold gen_inv, Np.len. cbn [g_alpha g_anti g_log].
      rewrite length_replicate.
      repeat split; try lia; apply Forall_replicate; unfold is_u8; lia. }
  destruct (setitem_u8_ok pol (g_log s) 0 (Q - 1)) as (q8 & _ & Hset);
    [lia|right; unfold is_u8; lia|].
  rewrite Hset in Hlog. injection Hlog as <-.
  split.
  - intros i Hi. exists (alpha_seq Q P_poly (Z.to_nat i)).
    destruct (Hcont (Z.to_nat i) ltac:(lia)) as [Ha Hl].
    split.
    + rewrite <- (Z2Nat.id i) at 1 by lia. by apply getitem_lookup.
    + pose proof (Hrange (Z.to_nat i)) as Hr.
      pose proof (order_nonzero Q P_poly n Hone (Z.to_nat i) ltac:(lia)).
      rewrite <- (Z2Nat.id (alpha_seq Q P_poly (Z.to_nat i))) by lia.
      apply getitem_lookup.
      rewrite list_lookup_insert_ne by lia.
      rewrite Hl. f_equal. lia.
  - apply submseteq_length_Permutation.
    + apply NoDup_submseteq.
      * apply NoDup_alt. intros i j x Hi Hj.
        apply lookup_take_Some in Hi as [Hi Hin].
        apply lookup_take_Some in Hj as [Hj Hjn].
        destruct (Hcont i Hin) as [Hi' _]. destruct (Hcont j Hjn) as [Hj' _].
        apply Hdist; [done|done|congruence].
      * intros x Hx. apply elem_of_take in Hx as (i & Hi & Hin).
        destruct (Hcont i Hin) as [Hi' _].
        assert (x = alpha_seq Q P_poly i) as -> by congruence.
        apply elem_of_seqZ.
        pose proof (Hrange i).
        pose proof (order_nonzero Q P_poly n Hone i ltac:(lia)). lia.
    + rewrite length_seqZ, length_take_le; [done|].
      unfold Np.len in Hanti. lia.
Qed.

(** C2: for [M = 9] and the primitive polynomial x^9 + x^4 + 1 (0b1000010001)
    the tables are not mutual inverses.  With a NumPy that raises on
    out-of-range stores construction fails with [OverflowError]; with one
    that wraps them, [antilog[8]] is 0 (256 modulo 256) and [log[0]] is 255,
    so [log[antilog[8]]] is not 8.  For every [M] in [9, 16] and every
    polynomial, a context that is returned has [log[antilog[256]] <> 256],
    the log table holding [uint8] entries only. *)
Theorem tables_not_inverse_above_8 :
  is_primitive 9 529 = true
  /\ GFContext.init Np.Raise 9 (Some 529) = inl OverflowError
  /\ (exists c, GFContext.init Np.Wrap 9 (Some 529) = inr c
                /\ Np.getitem (GFContext.anti_log_table c) 8 = inr 0
                /\ Np.getitem (GFContext.log_table c) 0 = inr 255)
  /\ (forall pol M P_poly c e l,
        GFContext.init pol M P_poly = inr c ->
        Np.getitem (GFContext.anti_log_table c) 256 = inr e ->
        Np.getitem (GFContext.log_table c) e = inr l ->
        l <> 256).
Proof.
  split; [vm_compute; reflexivity|].
  split; [vm_compute; reflexivity|].
  split.
  - eexists. split; [vm_compute; reflexivity|]. split; vm_compute; reflexivity.
  - intros pol M P_poly c e l Hc _ Hl.
    apply log_table_u8 in Hc. apply getitem_elem in Hl.
    assert (Hu : is_u8 l) by (eapply Forall_forall in Hc; eassumption).
    unfold is_u8 in Hu. lia.
Qed.

(** The built-in polynomials are primitive, and the context of the test
    suites is the one [GFContext(M=4)] builds, with either NumPy. *)
Lemma standard_polys_primitive :
  is_primitive 4 19 = true /\ is_primitive 6 67 = true
  /\ is_primitive 8 285 = true.
Proof. repeat split; vm_compute; reflexivity. Qed.

Lemma GFContext_gf16_built (pol : Np.cast_policy) :
  GFContext.init pol 4 None = inr gf16.
Proof. destruct pol; vm_compute; reflexivity. Qed.

(** ** llr_utils.py: hard decisions *)

Lemma llr_to_hard_bits_map (llrs : list float) :
  llr_to_hard_bits llrs = inr (map hard_decision llrs).
Proof.
  unfold llr_to_hard_bits, range, Np.len. rewrite Z.sub_0_r.
  set (body := fun (i : Z) (hard_bits : list Z) => _).
  destruct (for_each_invariant
    (fun i hb => 0 <= i /\ length hb = length llrs /\
       take (Z.to_nat i) hb = map hard_decision (take (Z.to_nat i) llrs))
    body (length llrs) 0 (replicate (length llrs) 0))
    as (hb & Hrun & _ & Hlen & Htake).
  - by rewrite length_replicate.
  - intros i hb Hi (_ & Hlen & Htake).
    destruct (Z_of_nat_complete i) as [p ->]; [lia|].
    rewrite Nat2Z.id in Htake.
    assert (Hp : (p < length llrs)%nat) by lia.
    destruct (lookup_lt_is_Some_2 llrs _ Hp) as [x Hx].
    exists (<[p := hard_decision x]> hb). split.
    + unfold body. rewrite (getitem_lookup _ _ _ Hx). simpl.
      unfold hard_decision.
      destruct (PrimFloat.ltb x 0); rewrite setitem_nat by lia; reflexivity.
    + split; [lia|]. split; [by rewrite length_insert|].
      replace (Z.to_nat (Z.of_nat p + 1)) with (Datatypes.S p) by lia.
      rewrite (take_S_r llrs _ x Hx).
      rewrite (take_S_r _ _ (hard_decision x))
        by (apply list_lookup_insert_eq; lia).
      rewrite take_insert_ge by lia.
      rewrite Htake, map_app. reflexivity.
  - rewrite Hrun. f_equal.
    rewrite Z.add_0_l, Nat2Z.id in Htake.
    rewrite (take_ge hb), (take_ge llrs) in Htake by lia. done.
Qed.

(** C9: the hard-decision utility is total and maps every LLR (finite or
    not) to exactly one of 0 and 1: 1 when the LLR is below zero and 0
    otherwise, so that an LLR of zero gives 0; the literal input
    [1.5, -2.0, 0.001, -0.001, 5.0, -5.0] gives [0,1,0,1,0,1]. *)
Theorem llr_to_hard_bits_total :
  (forall llrs : list float,
      llr_to_hard_bits llrs
      = inr (map (fun llr => if PrimFloat.ltb llr 0%float then 1 else 0) llrs))
  /\ (forall llrs : list float,
        exists bits, llr_to_hard_bits llrs = inr bits
                     /\ length bits = length llrs /\ Forall is_bit bits)
  /\ llr_to_hard_bits [0%float] = inr [0]
  /\ llr_to_hard_bits
       [1.5%float; (-2.0)%float; 0.001%float; (-0.001)%float; 5.0%float;
        (-5.0)%float]
     = inr [0; 1; 0; 1; 0; 1].
Proof.
  split; [exact llr_to_hard_bits_map|].
  split; [|split; reflexivity].
  intros llrs. exists (map hard_decision llrs).
  split; [apply llr_to_hard_bits_map|]. split; [apply length_map|].
  induction llrs as [|x llrs IH]; simpl; constructor; [|exact IH].
  unfold hard_decision, is_bit. destruct (PrimFloat.ltb x 0); auto.
Qed.

(** ** llr_utils.py: combining LLRs *)

(** C8: [log_map_approx] raises [TypeError] on every pair of LLRs, where
    the min-sum formula gives a value, 1 at (10, 1): [np.min] is called
    with the second magnitude in the place of its axis. *)
Theorem log_map_approx_raises :
  (forall L_a L_b : float, log_map_approx L_a L_b = inl TypeError)
  /\ log_map_approx 10%float 1%float = inl TypeError
  /\ min_sum 10%float 1%float = 1%float.
Proof. repeat split. Qed.

(** ** cyclic.py: systematic encoding *)

Lemma clamp_id (n b : Z) : 0 <= b <= n -> Np.clamp n b = b.
Proof.
  intros Hb. unfold Np.clamp.
  destruct (b <? 0) eqn:E; [apply Z.ltb_lt in E|]; lia.
Qed.

Lemma lxor_bit (a b : Z) : is_bit a -> is_bit b -> is_bit (Z.lxor a b).
Proof. intros [-> | ->] [-> | ->]; unfold is_bit; simpl; auto. Qed.

(** One step of the division on a frame whose first [p] bits are already
    cleared: bit [p] is cleared too, the rest stays a bit vector. *)
Lemma division_step_bits (p : nat) (tl : list Z) :
  Forall is_bit tl -> (8 <= length tl)%nat ->
  exists tl',
    division_step [1; 0; 1; 1; 0; 1; 1; 1] (Z.of_nat p) (replicate p 0 ++ tl)
    = inr (replicate (Datatypes.S p) 0 ++ tl')
    /\ Forall is_bit tl' /\ length tl = Datatypes.S (length tl').
Proof.
  intros Hbits Hlen.
  destruct tl as [|b0 [|b1 [|b2 [|b3 [|b4 [|b5 [|b6 [|b7 rest]]]]]]]];
    simpl in Hlen; try lia.
  unfold division_step.
  rewrite (getitem_lookup _ p b0)
    by (apply list_lookup_middle; by rewrite length_replicate).
  cbn [bind].
  repeat (apply Forall_cons in Hbits as [? Hbits]).
  match goal with H : is_bit b0 |- _ => destruct H as [-> | ->] end;
    cbn [Z.eqb Pos.eqb].
  - eexists. split; [rewrite replicate_S_end, <- app_assoc; reflexivity|].
    split; [|reflexivity].
    repeat (apply Forall_cons; split; [assumption|]). assumption.
  - unfold Np.ixor_slice.
    assert (Hn : Np.len (replicate p 0 ++ 1 :: b1 :: b2 :: b3 :: b4 :: b5
                           :: b6 :: b7 :: rest)
                 = Z.of_nat p + 8 + Z.of_nat (length rest)).
    { unfold Np.len. rewrite length_app, length_replicate. simpl. lia. }
    rewrite Hn. change (Np.len [1; 0; 1; 1; 0; 1; 1; 1]) with 8.
    rewrite !clamp_id by lia.
    replace (Z.to_nat (Z.of_nat p + 8 - Z.of_nat p)) with 8%nat by lia.
    rewrite Nat2Z.id. cbn [Nat.eqb negb].
    rewrite take_app_length' by (by rewrite length_replicate).
    rewrite <- drop_drop.
    rewrite drop_app_length' by (by rewrite length_replicate).
    cbn [take drop zip_with app].
    eexists. split; [rewrite replicate_S_end, <- app_assoc; reflexivity|].
    split; [|reflexivity].
    assert (is_bit 0) by (by left). assert (is_bit 1) by (by right).
    repeat (apply Forall_cons; split;
            [first [assumption | apply lxor_bit; assumption]|]).
    assumption.
Qed.

(** On a bit vector the division loop runs to its end and clears every
    data position of the working frame. *)
Lemma division_frame_bits (data : list Z) :
  Forall is_bit data ->
  exists tl,
    division_frame data [1; 0; 1; 1; 0; 1; 1; 1] (Np.len data)
    = inr (replicate (length data) 0 ++ tl)
    /\ length tl = 7%nat /\ Forall is_bit tl.
Proof.
  intros Hbits. unfold division_frame, range, Np.len. rewrite Z.sub_0_r.
  change (Np.zeros (Z.of_nat (length [1; 0; 1; 1; 0; 1; 1; 1]) - 1))
    with (@inr exn _ (replicate 7 0)).
  cbn [bind].
  destruct (for_each_invariant
    (fun i wf => 0 <= i /\ exists tl,
       wf = replicate (Z.to_nat i) 0 ++ tl /\ Forall is_bit tl /\
       (length tl + Z.to_nat i = length data + 7)%nat)
    (division_step [1; 0; 1; 1; 0; 1; 1; 1]) (length data) 0
    (data ++ replicate 7 0))
    as (wf & Hrun & _ & tl & -> & Htl & Hlen).
  - split; [lia|]. exists (data ++ replicate 7 0). split; [reflexivity|].
    split.
    + apply Forall_app. split; [assumption|].
      apply Forall_replicate. by left.
    + rewrite length_app, length_replicate. simpl. lia.
  - intros i wf Hi (_ & tl & -> & Htl & Hlen).
    destruct (Z_of_nat_complete i) as [p ->]; [lia|].
    rewrite Nat2Z.id in *.
    destruct (division_step_bits p tl Htl) as (tl' & Hstep & Htl' & Hlen');
      [lia|].
    exists (replicate (Datatypes.S p) 0 ++ tl'). split; [assumption|].
    split; [lia|]. exists tl'.
    replace (Z.to_nat (Z.of_nat p + 1)) with (Datatypes.S p) by lia.
    split; [reflexivity|]. split; [assumption|lia].
  - rewrite Z.add_0_l, Nat2Z.id in *.
    exists tl. split; [assumption|]. split; [lia|assumption].
Qed.

(** What [encode] returns on a bit vector of length [k]: the data followed
    by zeros, seven of them when [7 <= k] and none otherwise. *)
Lemma encode_bits (n k t : Z) (ctx : GFContext.context) (data : list Z) :
  Np.len data = k -> Forall is_bit data ->
  BCHGolayCoder.encode (BCHGolayCoder.init n k t ctx) data
  = inr (data ++ replicate (if 7 <=? k then 7 else 0) 0).
Proof.
  intros Hk Hbits. unfold BCHGolayCoder.encode, BCHGolayCoder.init.
  cbn [BCHGolayCoder.k BCHGolayCoder.generator_poly].
  rewrite Hk, Z.eqb_refl. cbn [negb].
  unfold _numba_cyclic_division. rewrite <- Hk.
  destruct (division_frame_bits data Hbits) as (tl & -> & Hlen & _).
  cbn [bind]. unfold ret. do 2 f_equal.
  change (Np.len [1; 0; 1; 1; 0; 1; 1; 1]) with 8.
  unfold Np.slice.
  assert (Hn : Np.len (replicate (length data) 0 ++ tl) = Np.len data + 7).
  { unfold Np.len. rewrite length_app, length_replicate. lia. }
  rewrite Hn. unfold Np.len in *.
  destruct (7 <=? Z.of_nat (length data)) eqn:E.
  - apply Z.leb_le in E. rewrite !clamp_id by lia.
    replace (Z.to_nat (Z.of_nat (length data)
                       - (Z.of_nat (length data) - 8 + 1))) with 7%nat by lia.
    rewrite drop_app_le by (rewrite length_replicate; lia).
    rewrite drop_replicate.
    replace (length data - Z.to_nat (Z.of_nat (length data) - 8 + 1))%nat
      with 7%nat by lia.
    rewrite take_app_length' by (by rewrite length_replicate).
    reflexivity.
  - apply Z.leb_gt in E.
    replace (Z.to_nat _) with 0%nat at 1; [reflexivity|].
    unfold Np.clamp.
    destruct (Z.of_nat (length data) - 8 + 1 <? 0) eqn:E1;
      [|apply Z.ltb_ge in E1; lia].
    destruct (Z.of_nat (length data) <? 0) eqn:E2;
      [apply Z.ltb_lt in E2; lia|].
    lia.
Qed.

(** C1: on the coder of the test suites and the 7-bit data vector
    [0,0,0,0,0,0,1], [encode] returns the data followed by seven zeros, 14
    bits in all, while the code length is 15 and the trailing bits of the
    working frame after the division are [0,1,1,0,1,1,1]: the parity is
    sliced from the data positions of the frame, which the division has
    cleared, not from its tail.  So it is for every coder and every bit
    vector of length [k]: the codeword is the data followed by zeros. *)
Theorem encode_parity_not_frame_tail :
  BCHGolayCoder.encode bch_15_7 [0; 0; 0; 0; 0; 0; 1]
  = inr [0; 0; 0; 0; 0; 0; 1; 0; 0; 0; 0; 0; 0; 0]
  /\ division_frame [0; 0; 0; 0; 0; 0; 1]
       (BCHGolayCoder.generator_poly bch_15_7) 7
     = inr [0; 0; 0; 0; 0; 0; 0; 0; 1; 1; 0; 1; 1; 1]
  /\ Np.slice_from [0; 0; 0; 0; 0; 0; 0; 0; 1; 1; 0; 1; 1; 1] 7
     = [0; 1; 1; 0; 1; 1; 1]
  /\ BCHGolayCoder.n bch_15_7 = 15
  /\ (forall (n k t : Z) (ctx : GFContext.context) (data : list Z),
        Np.len data = k -> Forall is_bit data ->
        BCHGolayCoder.encode (BCHGolayCoder.init n k t ctx) data
        = inr (data ++ replicate (if 7 <=? k then 7 else 0) 0)).
Proof.
  split; [reflexivity|]. split; [reflexivity|]. split; [reflexivity|].
  split; [reflexivity|]. exact encode_bits.
Qed.

(** ** cyclic.py: syndromes *)

(** C3: on the coder of the test suites, [_calculate_syndromes] of the
    15-bit word with a single 1 at position 0 is [0,0,0,0], where the
    syndrome kernel on the same word and the coder's tables gives
    [1,1,1,1]: the method returns zeros without calling the kernel. *)
Theorem calculate_syndromes_single_error :
  BCHGolayCoder._calculate_syndromes bch_15_7 (1 :: replicate 14 0)
  = inr [0; 0; 0; 0]
  /\ _numba_calculate_syndromes (1 :: replicate 14 0)
       (BCHGolayCoder.primitive_element_powers bch_15_7)
       (GFContext.inv_table (BCHGolayCoder.ctx bch_15_7)) 4 16 2 15
     = inr [1; 1; 1; 1].
Proof. split; vm_compute; reflexivity. Qed.

(** ** cyclic.py: decoding *)

Lemma decode_algebraic_eq (self : BCHGolayCoder.coder) (w : list Z) :
  0 <= BCHGolayCoder.t self ->
  BCHGolayCoder._decode_algebraic self w
  = inr (Np.slice_to w (BCHGolayCoder.k self), 0).
Proof.
  intros Ht. unfold BCHGolayCoder._decode_algebraic,
    BCHGolayCoder._calculate_syndromes, Np.zeros.
  destruct (2 * BCHGolayCoder.t self <? 0) eqn:E;
    [apply Z.ltb_lt in E; lia|reflexivity].
Qed.

Lemma decode_hard_eq (self : BCHGolayCoder.coder) (bits : list Z)
    (soft_decision : bool) (num_test_patterns : Z) :
  0 <= BCHGolayCoder.t self ->
  BCHGolayCoder.decode self false bits soft_decision num_test_patterns
  = inr (Np.slice_to (astype_uint8 bits) (BCHGolayCoder.k self), 0).
Proof.
  intros Ht. unfold BCHGolayCoder.decode, BCHGolayCoder.decode_with.
  by apply decode_algebraic_eq.
Qed.


Lemma slice_to_app {A : Type} (l1 l2 : list A) :
  Np.slice_to (l1 ++ l2) (Np.len l1) = l1.
Proof.
  unfold Np.slice_to, Np.slice, Np.len.
  rewrite !clamp_id by (rewrite ?length_app; lia).
  rewrite Z.sub_0_r, Nat2Z.id. simpl. by apply take_app_length.
Qed.

(** C4: on the coder of the test suites (t = 2), the all-zero data encodes
    to the all-zero word; with bits 0 and 1 of that codeword flipped,
    hard-decision decoding returns the data [1,1,0,0,0,0,0] and a corrected
    count of 0, neither the original data nor t; the count is 0 for every
    received word. *)
Theorem decode_t_errors_not_corrected :
  BCHGolayCoder.encode bch_15_7 [0; 0; 0; 0; 0; 0; 0] = inr (replicate 14 0)
  /\ BCHGolayCoder.decode bch_15_7 false ([1; 1] ++ replicate 12 0) false 4
     = inr ([1; 1; 0; 0; 0; 0; 0], 0)
  /\ BCHGolayCoder.t bch_15_7 = 2
  /\ forall (received : list Z) (soft_decision : bool) (num : Z),
       exists data,
         BCHGolayCoder.decode bch_15_7 false received soft_decision num
         = inr (data, 0).
Proof.
  repeat split; try reflexivity.
  intros received sd num. eexists. by apply decode_hard_eq.
Qed.






(** * Further properties *)

(** ** config.py: the field of a context *)

























(** *** Every context *)







Lemma for_each_elem {St : Type} (body : Z -> St -> result St) :
  forall (idx : list Z) (s s' : St) (i : Z),
    for_each idx body s = inr s' -> i ∈ idx ->
    exists s0 s1, body i s0 = inr s1.
Proof.
  induction idx as [|j idx IH]; intros s s' i Hrun Hi.
  - by apply elem_of_nil in Hi.
  - simpl in Hrun. apply bind_inr in Hrun as (s1 & Hb & Hrun).
    apply elem_of_cons in Hi as [-> | Hi]; [by exists s, s1|].
    by eapply IH.
Qed.

(** X10: with a NumPy that raises on out-of-range stores, no context is
    returned for a degree above 8, whatever the polynomial: iteration 256
    of the generation loop cannot store its exponent. *)
Theorem no_context_above_8_when_raising (M : Z) (P_poly : option Z)
    (c : GFContext.context) :
  9 <= M -> GFContext.init Np.Raise M P_poly <> inr c.
Proof.
  intros HM Hc. unfold GFContext.init in Hc.
  destruct ((2 <=? M) && (M <=? 16)) eqn:E; [|discriminate].
  cbn [negb] in Hc. rewrite Z.shiftl_1_l in Hc.
  apply bind_inr in Hc as (P & _ & Hc).
  assert (H9 : 2 ^ 9 <= 2 ^ M) by (apply Z.pow_le_mono_r; lia).
  unfold GFContext._build_tables in Hc.
  apply bind_inr in Hc as (anti0 & _ & Hc).
  apply bind_inr in Hc as (log0 & _ & Hc).
  apply bind_inr in Hc as (inv0 & _ & Hc).
  apply bind_inr in Hc as (s & Hs & _).
  apply for_each_elem with (i := 256) in Hs as (s0 & s1 & Hbody).
  - unfold gen_body in Hbody.
    destruct (2 ^ M <=? g_alpha s0); [discriminate|].
    apply bind_inr in Hbody as (anti & _ & Hbody).
    apply bind_inr in Hbody as (log' & Hlog' & _).
    unfold Np.setitem_u8 in Hlog'.
    apply bind_inr in Hlog' as (p & _ & Hlog').
    apply bind_inr in Hlog' as (v & Hv & _).
    vm_compute in Hv. discriminate.
  - apply elem_of_seqZ. lia.
Qed.

Lemma no_context_above_8_when_raising_witness :
  GFContext.init Np.Raise 9 (Some 529)
  <> inr (GFContext.mk 9 512 529 [] [] []).
Proof.
  apply (no_context_above_8_when_raising 9 (Some 529)). lia.
Defined.

(** ** cyclic.py: the syndrome kernel *)



















(** ** cyclic.py: encoding and decoding, further *)







(** ** modem.py *)

Lemma bpsk_bit_round_trip (b : Z) :
  is_bit b ->
  hard_decision (2.0 / 1.0 * (1.0 - 2.0 * float_of_uint8 b))%float = b
  /\ hard_decision (1e10 * (1.0 - 2.0 * float_of_uint8 b))%float = b.
Proof. intros [-> | ->]; split; vm_compute; reflexivity. Qed.

Lemma bpsk_hard_decisions (bits : list Z) :
  Forall is_bit bits ->
  map hard_decision
    (BPSKUnguided.demodulate (BPSKUnguided.modulate bits)
       BPSKUnguided.default_noise_variance) = bits
  /\ map hard_decision
       (BPSKUnguided.demodulate (BPSKUnguided.modulate bits) 0%float) = bits.
Proof.
  intros Hbits.
  unfold BPSKUnguided.demodulate, BPSKUnguided.modulate,
    BPSKUnguided.default_noise_variance, _numba_bpsk_demodulate_llr,
    _numba_bpsk_modulate.
  change (PrimFloat.eqb 1 0) with false. change (PrimFloat.eqb 0 0) with true.
  cbn iota.
  induction Hbits as [|b bits Hb _ [IH1 IH2]]; [by split|].
  cbn [map]. rewrite IH1, IH2.
  destruct (bpsk_bit_round_trip b Hb) as [-> ->]. by split.
Qed.

(** X16: without noise the modem loses nothing: the hard decisions of the
    LLRs demodulated from the modulated bits are the bits, with the default
    noise variance 1.0 and with a noise variance of 0. *)
Theorem bpsk_round_trip (bits : list Z) :
  Forall is_bit bits ->
  llr_to_hard_bits
    (BPSKUnguided.demodulate (BPSKUnguided.modulate bits)
       BPSKUnguided.default_noise_variance) = inr bits
  /\ llr_to_hard_bits
       (BPSKUnguided.demodulate (BPSKUnguided.modulate bits) 0%float)
     = inr bits.
Proof.
  intros Hbits. rewrite !llr_to_hard_bits_map.
  destruct (bpsk_hard_decisions bits Hbits) as [-> ->]. by split.
Qed.

Lemma bpsk_round_trip_witness :
  llr_to_hard_bits
    (BPSKUnguided.demodulate (BPSKUnguided.modulate [1; 0; 0; 1; 1])
       BPSKUnguided.default_noise_variance) = inr [1; 0; 0; 1; 1]
  /\ llr_to_hard_bits
       (BPSKUnguided.demodulate (BPSKUnguided.modulate [1; 0; 0; 1; 1])
          0%float)
     = inr [1; 0; 0; 1; 1].
Proof.
  apply (bpsk_round_trip [1; 0; 0; 1; 1]).
  repeat (apply List.Forall_cons; [first [by left | by right]|]).
  apply List.Forall_nil.
Defined.



(** ** rate_match.py *)

(** The pattern is read cyclically; with a pattern that is not empty the
    read never fails. *)
Lemma pattern_entry (pattern : list Z) (i : nat) :
  pattern <> [] ->
  exists p,
    py_mod (Z.of_nat i) (Np.len pattern)
    = inr (Z.of_nat (i mod length pattern))
    /\ Np.getitem pattern (Z.of_nat (i mod length pattern)) = inr p
    /\ (p =? 1) = kept pattern i.
Proof.
  intros Hne.
  assert (Hlen : (length pattern <> 0)%nat) by (by destruct pattern).
  destruct (lookup_lt_is_Some_2 pattern (i mod length pattern)) as [p Hp];
    [by apply Nat.mod_upper_bound|].
  exists p. split; [|split].
  - unfold py_mod, Np.len.
    destruct (Z.eqb_spec (Z.of_nat (length pattern)) 0); [lia|].
    unfold ret. by rewrite Nat2Z.inj_mod.
  - by apply getitem_lookup.
  - unfold kept. by rewrite Hp.
Qed.

Lemma puncturing_loop {A : Type} (pattern : list Z) :
  pattern <> [] ->
  forall suf pre out junk : list A,
    (length suf <= length junk)%nat ->
    for_each (seqZ (Np.len pre) (Np.len suf))
      (puncturing_step (pre ++ suf) pattern) (out ++ junk, Np.len out)
    = inr (out ++ select pattern (length pre) suf
               ++ drop (length (select pattern (length pre) suf)) junk,
           Np.len out + Np.len (select pattern (length pre) suf)).
Proof.
  intros Hne. induction suf as [|x suf IH]; intros pre out junk Hjunk.
  - cbn. unfold ret, Np.len. cbn. by rewrite Z.add_0_r.
  - unfold Np.len at 1 2. rewrite seqZ_cons by (simpl; lia). cbn [for_each].
    unfold puncturing_step at 1.
    destruct (pattern_entry pattern (length pre) Hne) as (p & -> & Hget & Hp).
    cbn [bind]. rewrite Hget. cbn [bind fst snd select]. rewrite Hp.
    replace (Z.succ (Z.of_nat (length pre)))
      with (Np.len (pre ++ [x])) by (unfold Np.len; rewrite length_app; simpl; lia).
    replace (Z.pred (Z.of_nat (length (x :: suf))))
      with (Np.len suf) by (unfold Np.len; simpl; lia).
    replace (pre ++ x :: suf) with ((pre ++ [x]) ++ suf)
      by (by rewrite <- app_assoc).
    replace (S (length pre)) with (length (pre ++ [x]))
      by (rewrite length_app; simpl; lia).
    destruct (kept pattern (length pre)).
    + rewrite (getitem_lookup _ (length pre) x)
        by (rewrite <- app_assoc; apply list_lookup_middle, eq_refl).
      cbn [bind].
      destruct junk as [|y junk]; [simpl in Hjunk; lia|].
      unfold Np.len at 1.
      rewrite setitem_nat by (rewrite length_app; simpl; lia).
      rewrite insert_app_r_alt by lia. rewrite Nat.sub_diag.
      cbn [bind ret]. change (<[0%nat:=x]> (y :: junk)) with (x :: junk).
      replace (out ++ x :: junk) with ((out ++ [x]) ++ junk)
        by (by rewrite <- app_assoc).
      replace (Np.len out + 1) with (Np.len (out ++ [x]))
        by (unfold Np.len; rewrite length_app; simpl; lia).
      rewrite IH by (simpl in Hjunk; lia).
      rewrite <- app_assoc. cbn [app length drop].
      f_equal. f_equal. unfold Np.len. rewrite length_app. simpl. lia.
    + cbn [bind ret]. rewrite IH by (simpl in Hjunk; lia). reflexivity.
Qed.

Lemma puncturing_run {A : Type} `{Inhabited A} (codeword : list A)
    (puncturing_pattern : list Z) :
  puncturing_pattern <> [] ->
  _numba_puncturing codeword puncturing_pattern
  = inr (select puncturing_pattern 0 codeword).
Proof.
  intros Hne. unfold _numba_puncturing, np_empty, range.
  assert (Hlen : 0 <= Np.len codeword) by (unfold Np.len; lia).
  destruct (Z.ltb_spec (Np.len codeword) 0); [lia|]. cbn [bind ret].
  rewrite Z.sub_0_r.
  pose proof (puncturing_loop puncturing_pattern Hne codeword [] []
                (replicate (Z.to_nat (Np.len codeword)) inhabitant)) as Hrun.
  cbn [app length] in Hrun. change (Np.len []) with 0 in Hrun.
  rewrite Hrun by (rewrite length_replicate; unfold Np.len; lia).
  cbn [bind ret fst snd]. rewrite Z.add_0_l. by rewrite slice_to_app.
Qed.

Lemma select_bound {A : Type} (pattern : list Z) :
  forall (l : list A) (i : nat),
    (length (select pattern i l) <= length l)%nat.
Proof.
  induction l as [|x l IH]; intros i; [reflexivity|].
  cbn [select]. pose proof (IH (S i)).
  destruct (kept pattern i); cbn [length]; lia.
Qed.

(** X18: with a pattern that is not empty, puncturing returns exactly the
    entries of the codeword at the positions where the cyclically repeated
    pattern holds 1, in their order, so never more entries than the
    codeword has; nothing of the preallocated buffer shows in the result. *)
Theorem puncturing_selects {A : Type} `{Inhabited A} (codeword : list A)
    (puncturing_pattern : list Z) :
  puncturing_pattern <> [] ->
  _numba_puncturing codeword puncturing_pattern
  = inr (select puncturing_pattern 0 codeword)
  /\ (length (select puncturing_pattern 0 codeword) <= length codeword)%nat.
Proof.
  intros Hne. split; [by apply puncturing_run|apply select_bound].
Qed.

Lemma puncturing_selects_witness :
  _numba_puncturing [10; 11; 12; 13; 14] [1; 0; 1]
  = inr (select [1; 0; 1] 0 [10; 11; 12; 13; 14])
  /\ (length (select [1; 0; 1]%Z 0 [10; 11; 12; 13; 14]%Z)
      <= length [10; 11; 12; 13; 14]%Z)%nat.
Proof. apply (puncturing_selects [10; 11; 12; 13; 14] [1; 0; 1]). discriminate. Defined.

(** X19: with an empty pattern, puncturing raises [ZeroDivisionError] on
    every codeword that has an entry, and returns the empty array on the
    empty codeword. *)
Theorem puncturing_empty_pattern {A : Type} `{Inhabited A}
    (codeword : list A) :
  _numba_puncturing codeword []
  = match codeword with [] => inr [] | _ :: _ => inl ZeroDivisionError end.
Proof.
  unfold _numba_puncturing, np_empty, range.
  assert (Hlen : 0 <= Np.len codeword) by (unfold Np.len; lia).
  destruct (Z.ltb_spec (Np.len codeword) 0); [lia|]. cbn [bind ret].
  destruct codeword as [|x codeword]; [reflexivity|].
  rewrite Z.sub_0_r. unfold Np.len.
  rewrite seqZ_cons by (cbn [length]; lia). reflexivity.
Qed.

Lemma depuncturing_loop {A : Type} (pattern : list Z) (null : A) :
  pattern <> [] ->
  forall (n : nat) (done used r : list A),
    exists rx_idx,
      for_each (seqZ (Np.len done) (Z.of_nat n))
        (depuncturing_step (used ++ r) pattern)
        (done ++ replicate n null, Np.len used)
      = inr (done ++ spread pattern (length done) n r null, rx_idx).
Proof.
  intros Hne. induction n as [|n IH]; intros done used r.
  - exists (Np.len used). reflexivity.
  - rewrite seqZ_cons by lia. cbn [for_each].
    unfold depuncturing_step at 1.
    change (Np.len done) with (Z.of_nat (length done)).
    destruct (pattern_entry pattern (length done) Hne) as (p & -> & Hget & Hp).
    cbn [bind]. rewrite Hget. cbn [bind fst snd spread replicate]. rewrite Hp.
    replace (Z.pred (Z.of_nat (S n))) with (Z.of_nat n) by lia.
    assert (Hnext : forall y : A,
              Z.succ (Z.of_nat (length done)) = Np.len (done ++ [y]))
      by (intros y; unfold Np.len; rewrite length_app; simpl; lia).
    assert (Hskip : forall r',
              exists rx_idx,
                (let! s' := ret (done ++ null :: replicate n null, Np.len used) in
                 for_each (seqZ (Z.succ (Z.of_nat (length done))) (Z.of_nat n))
                   (depuncturing_step (used ++ r') pattern) s')
                = inr (done ++ null :: spread pattern (S (length done)) n r' null,
                       rx_idx)).
    { intros r'. destruct (IH (done ++ [null]) used r') as (rx & Hrun).
      exists rx. rewrite <- !app_assoc in Hrun. cbn [app] in Hrun.
      rewrite length_app in Hrun. cbn [length] in Hrun.
      rewrite Nat.add_1_r in Hrun. rewrite (Hnext null). exact Hrun. }
    destruct (kept pattern (length done)); [|apply Hskip].
    destruct r as [|x r].
    + destruct (Z.ltb_spec (Np.len used) (Np.len (used ++ [])));
        [rewrite app_nil_r in *; lia|]. apply Hskip.
    + destruct (Z.ltb_spec (Np.len used) (Np.len (used ++ x :: r))) as [_|Hge];
        [|unfold Np.len in Hge; rewrite length_app in Hge; simpl in Hge; lia].
      rewrite (getitem_lookup _ (length used) x)
        by apply list_lookup_middle, eq_refl.
      cbn [bind].
      rewrite setitem_nat by (rewrite length_app; simpl; lia).
      rewrite insert_app_r_alt by lia. rewrite Nat.sub_diag.
      cbn [bind ret]. change (<[0%nat:=x]> (null :: replicate n null))
        with (x :: replicate n null).
      destruct (IH (done ++ [x]) (used ++ [x]) r) as (rx & Hrun).
      exists rx. rewrite <- !app_assoc in Hrun. cbn [app] in Hrun.
      rewrite length_app in Hrun. cbn [length] in Hrun.
      rewrite Nat.add_1_r in Hrun. rewrite (Hnext x).
      replace (Np.len used + 1) with (Np.len (used ++ [x]))
        by (unfold Np.len; rewrite length_app; simpl; lia).
      exact Hrun.
Qed.

Lemma spread_length {A : Type} (pattern : list Z) (null : A) (n : nat) :
  forall (i : nat) (l : list A), length (spread pattern i n l null) = n.
Proof.
  induction n as [|n IH]; intros i l; [reflexivity|].
  cbn [spread]. destruct (kept pattern i); [destruct l|]; simpl; by rewrite IH.
Qed.

Lemma depuncturing_run {A : Type} (received_llrs : list A)
    (puncturing_pattern : list Z) (N : Z) (LLR_null : A) :
  puncturing_pattern <> [] -> 0 <= N ->
  _numba_depuncturing received_llrs puncturing_pattern N LLR_null
  = inr (spread puncturing_pattern 0 (Z.to_nat N) received_llrs LLR_null).
Proof.
  intros Hne HN. unfold _numba_depuncturing, np_full, range.
  destruct (Z.ltb_spec N 0); [lia|]. cbn [bind ret].
  destruct (depuncturing_loop puncturing_pattern LLR_null Hne (Z.to_nat N)
              [] [] received_llrs) as (rx & Hrun).
  cbn [app length] in Hrun. change (Np.len []) with 0 in Hrun.
  rewrite Z2Nat.id in Hrun by lia.
  rewrite Z.sub_0_r, Hrun. reflexivity.
Qed.

(** X20: depuncturing never fails on a pattern that is not empty and a
    length [N] that is not negative, whatever the number of received
    values: the result has [N] entries, each kept position takes the next
    received value while there is one, and every other position holds
    [LLR_null]; received values beyond the kept positions are ignored. A
    negative [N] raises [ValueError]. *)
Theorem depuncturing_spreads {A : Type} (received_llrs : list A)
    (puncturing_pattern : list Z) (N : Z) (LLR_null : A) :
  puncturing_pattern <> [] ->
  (0 <= N ->
   _numba_depuncturing received_llrs puncturing_pattern N LLR_null
   = inr (spread puncturing_pattern 0 (Z.to_nat N) received_llrs LLR_null)
   /\ Np.len (spread puncturing_pattern 0 (Z.to_nat N) received_llrs LLR_null)
      = N)
  /\ (N < 0 ->
      _numba_depuncturing received_llrs puncturing_pattern N LLR_null
      = inl ValueError).
Proof.
  intros Hne. split.
  - intros HN. split; [by apply depuncturing_run|].
    unfold Np.len. rewrite spread_length. lia.
  - intros HN. unfold _numba_depuncturing, np_full.
    destruct (Z.ltb_spec N 0); [reflexivity|lia].
Qed.

Lemma depuncturing_spreads_witness :
  (0 <= 5 ->
   _numba_depuncturing [10; 12] [1; 0; 1] 5 0
   = inr (spread [1; 0; 1] 0 (Z.to_nat 5) [10; 12] 0)
   /\ Np.len (spread [1; 0; 1] 0 (Z.to_nat 5) [10; 12] 0) = 5)
  /\ (5 < 0 -> _numba_depuncturing [10; 12] [1; 0; 1] 5 0 = inl ValueError).
Proof. apply (depuncturing_spreads [10; 12] [1; 0; 1] 5 0). discriminate. Defined.

Lemma spread_select {A : Type} (pattern : list Z) (null : A) :
  forall (c : list A) (i : nat),
    spread pattern i (length c) (select pattern i c) null
    = imap (fun j x => if kept pattern (i + j) then x else null) c.
Proof.
  induction c as [|x c IH]; intros i; [reflexivity|].
  cbn [length spread select imap]. rewrite Nat.add_0_r.
  destruct (kept pattern i) eqn:E.
  - rewrite IH. f_equal. apply imap_ext. intros j y _. simpl.
    by rewrite Nat.add_succ_r.
  - rewrite IH. f_equal. apply imap_ext. intros j y _. simpl.
    by rewrite Nat.add_succ_r.
Qed.

(** X21: puncturing a codeword and depuncturing the result to the
    codeword's length puts every kept entry back at its position and
    [LLR_null] at every punctured position. *)
Theorem depuncture_puncture {A : Type} `{Inhabited A} (codeword : list A)
    (puncturing_pattern : list Z) (LLR_null : A) :
  puncturing_pattern <> [] ->
  exists depunctured,
    (let! punctured := _numba_puncturing codeword puncturing_pattern in
     _numba_depuncturing punctured puncturing_pattern (Np.len codeword)
       LLR_null)
    = inr depunctured
    /\ length depunctured = length codeword
    /\ forall (i : nat) (x : A),
         codeword !! i = Some x ->
         depunctured !! i
         = Some (if kept puncturing_pattern i then x else LLR_null).
Proof.
  intros Hne. rewrite puncturing_run by done. cbn [bind].
  assert (Hlen : 0 <= Np.len codeword) by (unfold Np.len; lia).
  rewrite depuncturing_run by done.
  unfold Np.len. rewrite Nat2Z.id, spread_select.
  eexists. split; [reflexivity|]. split; [by rewrite length_imap|].
  intros i x Hx. by rewrite list_lookup_imap, Hx.
Qed.

Lemma depuncture_puncture_witness :
  exists depunctured,
    (let! punctured := _numba_puncturing [10; 11; 12; 13; 14] [1; 0; 1] in
     _numba_depuncturing punctured [1; 0; 1] (Np.len [10; 11; 12; 13; 14]) 0)
    = inr depunctured
    /\ length depunctured = length [10; 11; 12; 13; 14]
    /\ forall (i : nat) (x : Z),
         [10; 11; 12; 13; 14] !! i = Some x ->
         depunctured !! i = Some (if kept [1; 0; 1] i then x else 0).
Proof.
  apply (depuncture_puncture [10; 11; 12; 13; 14] [1; 0; 1] 0). discriminate.
Defined.

Lemma select_spread {A : Type} (pattern : list Z) (null : A) :
  forall (n i : nat) (r : list A),
    length r = length (select pattern i (replicate n null)) ->
    select pattern i (spread pattern i n r null) = r.
Proof.
  induction n as [|n IH]; intros i r Hr.
  - simpl in Hr. by destruct r.
  - cbn [replicate select] in Hr. cbn [spread].
    destruct (kept pattern i) eqn:E.
    + destruct r as [|x r]; [discriminate|].
      cbn [select]. rewrite E. f_equal. apply IH. simpl in Hr. lia.
    + cbn [select]. rewrite E. by apply IH.
Qed.

(** X22: depuncturing as many received values as the pattern keeps
    positions among the first [N], and puncturing the result, returns the
    received values. *)
Theorem puncture_depuncture {A : Type} `{Inhabited A} (received_llrs : list A)
    (puncturing_pattern : list Z) (N : Z) (LLR_null : A) :
  puncturing_pattern <> [] -> 0 <= N ->
  length received_llrs
  = length (select puncturing_pattern 0 (replicate (Z.to_nat N) LLR_null)) ->
  (let! depunctured :=
     _numba_depuncturing received_llrs puncturing_pattern N LLR_null in
   _numba_puncturing depunctured puncturing_pattern)
  = inr received_llrs.
Proof.
  intros Hne HN Hlen.
  rewrite depuncturing_run by done. cbn [bind].
  rewrite puncturing_run by done. by rewrite select_spread.
Qed.

Lemma puncture_depuncture_witness :
  (let! depunctured := _numba_depuncturing [10; 12; 13] [1; 0; 1] 5 0 in
   _numba_puncturing depunctured [1; 0; 1])
  = inr [10; 12; 13].
Proof.
  apply (puncture_depuncture [10; 12; 13] [1; 0; 1] 5 0).
  - discriminate.
  - lia.
  - reflexivity.
Defined.

Lemma select_length {A B : Type} (pattern : list Z) :
  forall (l : list A) (l' : list B) (i : nat),
    length l = length l' ->
    length (select pattern i l) = length (select pattern i l').
Proof.
  induction l as [|x l IH]; intros [|y l'] i Hl; try discriminate;
    [reflexivity|].
  cbn [select]. injection Hl as Hl.
  destruct (kept pattern i); cbn [length]; by rewrite (IH l' (S i) Hl).
Qed.

(** X23: for a rate matcher whose pattern is not empty and whose
    [original_N] is the length of the input, puncturing succeeds, and
    depuncturing the punctured array and puncturing it again returns the
    punctured array: the zeros that [depuncture] inserts sit exactly at the
    positions that [puncture] removes. *)
Theorem rate_matcher_round_trip (self : RateMatcher.matcher)
    (llrs : list float) :
  RateMatcher.puncturing_pattern self <> [] ->
  RateMatcher.original_N self = Np.len llrs ->
  exists punctured,
    RateMatcher.puncture self llrs = inr punctured
    /\ (let! depunctured := RateMatcher.depuncture self punctured in
        RateMatcher.puncture self depunctured) = inr punctured.
Proof.
  intros Hne HN. unfold RateMatcher.puncture, RateMatcher.depuncture.
  rewrite puncturing_run by done.
  eexists. split; [reflexivity|].
  rewrite depuncturing_run by (done || (rewrite HN; unfold Np.len; lia)).
  cbn [bind]. rewrite puncturing_run by done.
  rewrite select_spread; [reflexivity|].
  apply select_length. rewrite length_replicate, HN. unfold Np.len. lia.
Qed.

Lemma rate_matcher_round_trip_witness :
  exists punctured,
    RateMatcher.puncture (RateMatcher.mk 5 3 [1; 0; 1])
      [1.5%float; (-2)%float; 0.5%float; 3%float; (-1)%float]
    = inr punctured
    /\ (let! depunctured :=
          RateMatcher.depuncture (RateMatcher.mk 5 3 [1; 0; 1]) punctured in
        RateMatcher.puncture (RateMatcher.mk 5 3 [1; 0; 1]) depunctured)
       = inr punctured.
Proof.
  apply (rate_matcher_round_trip (RateMatcher.mk 5 3 [1; 0; 1])
           [1.5%float; (-2)%float; 0.5%float; 3%float; (-1)%float]).
  - discriminate.
  - reflexivity.
Defined.
